(** * parse_to_csv: the simulation-log transformer

    A shallow embedding of [scripts/parse_to_csv.py] and the properties of
    its line parser, its per-symbol aggregation and its two output tables.

    Text is modelled with [string] and [list ascii] (one character per code
    point below 256), Python floats with the binary64 instance of the
    Standard Library's [SpecFloat], Python integers with [Z], the six
    dictionaries of the aggregation with [gmap string _], and the file
    system with a finite map from paths to nodes. *)

From Stdlib Require Import ZArith Ascii String List Lia.
From Stdlib Require Import Floats.SpecFloat.
From stdpp Require Import gmap strings list sorting.

Local Open Scope Z_scope.

(** ** Exceptions and results *)

Inductive exn :=
| ValueError
| TypeError
| KeyError
| OverflowError
| FileNotFoundError
| FileExistsError
| IsADirectoryError.

Inductive outcome (A : Type) :=
| Ok (a : A)
| Raise (e : exn).
Arguments Ok {A} a.
Arguments Raise {A} e.

Definition obind {A B} (m : outcome A) (k : A -> outcome B) : outcome B :=
  match m with
  | Ok a => k a
  | Raise e => Raise e
  end.

Notation "'let?' x := m 'in' k" := (obind m (fun x => k))
  (at level 10, x name, m at level 100, k at level 200).

(** ** Characters and text *)

Module Text.

Definition nl : ascii := "010"%char.
Definition cr : ascii := "013"%char.

(** [str.isspace] on one character, as used by [\s] and by [str.strip]:
    TAB..CR, FS..US, space, NEL and NBSP. *)
Definition isspace (c : ascii) : bool :=
  let n := N_of_ascii c in
  ((9 <=? n) && (n <=? 13) || (28 <=? n) && (n <=? 32)
   || (n =? 133) || (n =? 160))%N.

(** The decimal value of a digit character. *)
Definition digit_value (c : ascii) : option Z :=
  let n := N_of_ascii c in
  if ((48 <=? n) && (n <=? 57))%N then Some (Z.of_N n - 48) else None.

Definition isdigit (c : ascii) : bool :=
  match digit_value c with Some _ => true | None => false end.

Fixpoint lstrip (s : list ascii) : list ascii :=
  match s with
  | c :: s' => if isspace c then lstrip s' else s
  | [] => []
  end.

(** [s.strip()] *)
Definition strip (s : list ascii) : list ascii :=
  rev (lstrip (rev (lstrip s))).

Fixpoint starts_with (p s : list ascii) : bool :=
  match p, s with
  | [], _ => true
  | a :: p', b :: s' => if Ascii.eqb a b then starts_with p' s' else false
  | _ :: _, [] => false
  end.

(** [needle in s] *)
Fixpoint contains (needle s : list ascii) : bool :=
  starts_with needle s ||
  match s with
  | [] => false
  | _ :: s' => contains needle s'
  end.

(** Universal newlines on reading: CR LF and a lone CR become LF. *)
Fixpoint translate_newlines (s : list ascii) : list ascii :=
  match s with
  | [] => []
  | c :: s' =>
      if Ascii.eqb c cr then
        match s' with
        | d :: s'' => if Ascii.eqb d nl then nl :: translate_newlines s''
                      else nl :: translate_newlines s'
        | [] => [nl]
        end
      else c :: translate_newlines s'
  end.

(** The lines a text file yields when iterated: each keeps its LF. *)
Fixpoint split_lines (cur : list ascii) (s : list ascii) : list (list ascii) :=
  match s with
  | [] => match cur with [] => [] | _ => [rev cur] end
  | c :: s' =>
      if Ascii.eqb c nl then rev (c :: cur) :: split_lines [] s'
      else split_lines (c :: cur) s'
  end.

Definition readlines (content : string) : list string :=
  map string_of_list_ascii
      (split_lines [] (translate_newlines (list_ascii_of_string content))).

End Text.

(** ** Binary64 floats *)

Module Float64.

Definition float := spec_float.
Definition prec : Z := 53.
Definition emax : Z := 1024.

Definition zero : float := S754_zero false.
Definition add : float -> float -> float := SFadd prec emax.
Definition mul : float -> float -> float := SFmul prec emax.
Definition div : float -> float -> float := SFdiv prec emax.
Definition ltb : float -> float -> bool := SFltb.
Definition leb : float -> float -> bool := SFleb.
Definition eqb : float -> float -> bool := SFeqb.

Definition is_nan (x : float) : bool :=
  match x with S754_nan => true | _ => false end.

(** The double nearest to [n / d] (ties to even), with sign [neg]. *)
Definition of_ratio (neg : bool) (n d : positive) : float :=
  let '(mz, ez, lz) := SFdiv_core_binary prec emax (Zpos n) 0 (Zpos d) 0 in
  binary_round_aux prec emax neg mz ez lz.

(** The double nearest to an integer. *)
Definition of_Z (z : Z) : float := binary_normalize prec emax z 0 false.

(** Conversion of a Python int in mixed arithmetic: it raises where the
    nearest double would be infinite. *)
Definition of_int (z : Z) : outcome float :=
  match of_Z z with
  | S754_infinity _ => Raise OverflowError
  | f => Ok f
  end.

(** [n / d] rounded to the nearest integer, ties to even ([0 < d]). *)
Definition div_half_even (n d : Z) : Z :=
  let '(q, r) := Z.div_eucl n d in
  match 2 * r ?= d with
  | Lt => q
  | Gt => q + 1
  | Eq => if Z.even q then q else q + 1
  end.

(** [round(x, 2)]: the exact value of [x] is rounded to the nearest
    multiple of 1/100 (ties to even), and that decimal is converted back
    to the nearest double; zeros, infinities and NaN round to themselves,
    and the sign of [x] is kept. *)
Definition round2 (x : float) : float :=
  match x with
  | S754_finite s m e =>
      let hundredths :=
        match e with
        | Zneg p => div_half_even (100 * Zpos m) (2 ^ Zpos p)
        | _ => 100 * Zpos m * 2 ^ e
        end in
      match hundredths with
      | Zpos k => of_ratio s k 100
      | _ => S754_zero s
      end
  | _ => x
  end.

Definition hundred : float := of_Z 100.

End Float64.

Abbreviation float := Float64.float.

(** ** Regular expressions

    The fragment of Python's [re] syntax that [line_re] uses: the start
    anchor, literal text, a character class, a quantified character class
    (greedy or lazy, with a lower and an optional upper bound), alternation,
    concatenation and numbered capture groups.  The matcher backtracks in
    the order Python's does: the left alternative first, a greedy quantifier
    from the longest repetition down, a lazy one from the shortest up. *)

Module Regex.

Definition cclass := ascii -> bool.

Inductive re :=
| Bol
| Lit (s : list ascii)
| Rep (greedy : bool) (lo : nat) (hi : option nat) (p : cclass)
| Alt (r1 r2 : re)
| Seq (r1 r2 : re)
| Group (n : nat) (r : re).

(** A match in progress: the text captured by each group so far. *)
Definition captures := gmap nat (list ascii).

Section Matcher.
Context {R : Type}.

(** The continuation receives the position reached, the rest of the
    text and the captures. *)
Definition cont := nat -> list ascii -> captures -> option R.

Definition or_else (a b : option R) : option R :=
  match a with Some _ => a | None => b end.

Fixpoint rep_match (greedy : bool) (p : cclass) (lo : nat) (hi : option nat)
    (pos : nat) (s : list ascii) (caps : captures) (k : cont) : option R :=
  let stop := match lo with O => k pos s caps | S _ => None end in
  let more :=
    match s with
    | c :: s' =>
        if p c then
          match hi with
          | Some O => None
          | Some (S h) => rep_match greedy p (Nat.pred lo) (Some h) (S pos) s' caps k
          | None => rep_match greedy p (Nat.pred lo) None (S pos) s' caps k
          end
        else None
    | [] => None
    end in
  if greedy then or_else more stop else or_else stop more.

Fixpoint rmatch (r : re) (pos : nat) (s : list ascii) (caps : captures)
    (k : cont) : option R :=
  match r with
  | Bol => match pos with O => k pos s caps | S _ => None end
  | Lit l =>
      if Text.starts_with l s
      then k (pos + length l)%nat (drop (length l) s) caps
      else None
  | Rep g lo hi p => rep_match g p lo hi pos s caps k
  | Alt r1 r2 => or_else (rmatch r1 pos s caps k) (rmatch r2 pos s caps k)
  | Seq r1 r2 =>
      rmatch r1 pos s caps (fun pos1 s1 caps1 => rmatch r2 pos1 s1 caps1 k)
  | Group n r1 =>
      rmatch r1 pos s caps
        (fun pos1 s1 caps1 => k pos1 s1 (<[n := take (pos1 - pos) s]> caps1))
  end.
End Matcher.

(** [pattern.search(text)]: the first start position, from the left, at
    which the pattern matches. *)
Fixpoint search_from (r : re) (pos : nat) (s : list ascii) : option captures :=
  match rmatch r pos s ∅ (fun _ _ caps => Some caps) with
  | Some caps => Some caps
  | None =>
      match s with
      | [] => None
      | _ :: s' => search_from r (S pos) s'
      end
  end.

Definition search (r : re) (text : list ascii) : option captures :=
  search_from r 0 text.

(** [m.groups()] for a pattern with [n] groups. *)
Definition groups (n : nat) (m : captures) : list (option (list ascii)) :=
  map (fun i => m !! i) (seq 1 n).

(** Declarative reading: [matches r pos w caps caps'] says that [r],
    started at position [pos] with captures [caps], can consume exactly
    the text [w] and leave the captures [caps']. *)
Inductive matches : re -> nat -> list ascii -> captures -> captures -> Prop :=
| M_bol caps : matches Bol 0 [] caps caps
| M_lit l pos caps : matches (Lit l) pos l caps caps
| M_rep g lo hi p pos w caps :
    Forall (fun c => p c = true) w ->
    (lo <= length w)%nat ->
    (forall h, hi = Some h -> (length w <= h)%nat) ->
    matches (Rep g lo hi p) pos w caps caps
| M_alt_l r1 r2 pos w caps caps' :
    matches r1 pos w caps caps' -> matches (Alt r1 r2) pos w caps caps'
| M_alt_r r1 r2 pos w caps caps' :
    matches r2 pos w caps caps' -> matches (Alt r1 r2) pos w caps caps'
| M_seq r1 r2 pos w1 w2 caps caps1 caps2 :
    matches r1 pos w1 caps caps1 ->
    matches r2 (pos + length w1)%nat w2 caps1 caps2 ->
    matches (Seq r1 r2) pos (w1 ++ w2) caps caps2
| M_group n r pos w caps caps' :
    matches r pos w caps caps' ->
    matches (Group n r) pos w caps (<[n := w]> caps').

(** Classes and shorthands of the pattern language. *)
Definition digit : cclass := Text.isdigit.                      (* \d *)
Definition space : cclass := Text.isspace.                      (* \s *)
Definition dot : cclass := fun c => negb (Ascii.eqb c Text.nl). (* . *)
Definition one_of (l : list ascii) : cclass :=
  fun c => existsb (Ascii.eqb c) l.
Definition none_of (l : list ascii) : cclass :=
  fun c => negb (existsb (Ascii.eqb c) l).
Definition range (a b : ascii) : cclass :=
  fun c => (N_of_ascii a <=? N_of_ascii c)%N && (N_of_ascii c <=? N_of_ascii b)%N.
Definition union (p q : cclass) : cclass := fun c => p c || q c.

Definition times (n : nat) (p : cclass) : re := Rep true n (Some n) p.  (* p{n} *)
Definition plus (p : cclass) : re := Rep true 1 None p.                 (* p+ *)
Definition opt (p : cclass) : re := Rep true 0 (Some 1%nat) p.          (* p? *)
Definition lazy_star (p : cclass) : re := Rep false 0 None p.           (* p*? *)

End Regex.


(** ** The numeric conversions

    [float(s)] and [int(s)] on the text a capture of [line_re] can hold: an
    optional sign followed by digits and dots.  (Blanks around the number,
    an exponent, underscores and the words inf and nan, which the built-ins
    also read, contain characters no such capture has.) *)

Fixpoint digits_value (acc : Z) (s : list ascii) : option Z :=
  match s with
  | [] => Some acc
  | c :: s' =>
      match Text.digit_value c with
      | Some d => digits_value (10 * acc + d) s'
      | None => None
      end
  end.

(** The text before the first dot, and the text after it when there is one. *)
Fixpoint split_dot (s : list ascii) : list ascii * option (list ascii) :=
  match s with
  | [] => ([], None)
  | c :: s' =>
      if Ascii.eqb c "."%char then ([], Some s')
      else let '(a, b) := split_dot s' in (c :: a, b)
  end.

(** [float(s)]: a decimal literal is read exactly, as the integer made of
    all its digits over a power of ten, and rounded once to the nearest
    double. *)
Definition py_float (s : list ascii) : outcome float :=
  let '(neg, body) :=
    match s with
    | c :: t => if Ascii.eqb c "-"%char then (true, t)
                else if Ascii.eqb c "+"%char then (false, t)
                else (false, s)
    | [] => (false, s)
    end in
  let '(ip, fp) := split_dot body in
  let fp := default [] fp in
  match ip ++ fp with
  | [] => Raise ValueError
  | ds =>
      match digits_value 0 ds with
      | Some (Zpos n) =>
          Ok (Float64.of_ratio neg n (Z.to_pos (10 ^ Z.of_nat (length fp))))
      | Some _ => Ok (S754_zero neg)
      | None => Raise ValueError
      end
  end.

Section Program.

(** The interpreter's limit on the number of digits [int] converts
    ([sys.int_info.default_max_str_digits] is 4300; 0 disables the limit,
    as in interpreters that predate it). *)
Context (int_max_str_digits : nat).

(** [int(s)] *)
Definition py_int (s : list ascii) : outcome Z :=
  match s with
  | [] => Raise ValueError
  | _ =>
      match digits_value 0 s with
      | Some z =>
          if (0 <? int_max_str_digits)%nat && (int_max_str_digits <? length s)%nat
          then Raise ValueError
          else Ok z
      | None => Raise ValueError
      end
  end.

(** ** The line parser *)

Import Regex.

Definition lit (s : string) : re := Lit (list_ascii_of_string s).

Local Infix "+++" := Seq (at level 60, right associativity).

(** [\d{4}/\d{2}/\d{2} \d{2}:\d{2}:\d{2}] *)
Definition timestamp_re : re :=
  times 4 digit +++ lit "/" +++ times 2 digit +++ lit "/" +++ times 2 digit
  +++ lit " " +++ times 2 digit +++ lit ":" +++ times 2 digit +++ lit ":"
  +++ times 2 digit.

(** [[0-9.]] *)
Definition number_chars : cclass :=
  union (range "0" "9") (one_of ["."%char]).

(** The pattern of the script,
    [^(\d{4}/\d{2}/\d{2} \d{2}:\d{2}:\d{2}) .*?(HIT:|MISS:)\s+([^|]+) \| PnL=\$(-?[0-9.]+) \| Capital=\$([0-9.]+) \| Trades: (\d+)/(\d+)],
    group by group. *)
Definition line_re : re :=
  Bol +++ Group 1 timestamp_re +++ lit " " +++ lazy_star dot
  +++ Group 2 (Alt (lit "HIT:") (lit "MISS:")) +++ plus space
  +++ Group 3 (plus (none_of ["|"%char])) +++ lit " | PnL=$"
  +++ Group 4 (opt (one_of ["-"%char]) +++ plus number_chars)
  +++ lit " | Capital=$" +++ Group 5 (plus number_chars)
  +++ lit " | Trades: " +++ Group 6 (plus digit) +++ lit "/"
  +++ Group 7 (plus digit).

(** One element of [rows]. *)
Record trade := {
  timestamp : string;
  status : string;
  symbol : string;
  pnl_usd : float;
  capital_usd : float;
  trade_index : Z;
  total_trades : Z
}.

(** The body of the reading loop for one line: [None] when the line does
    not match (the [continue]), otherwise the row appended or the
    exception raised while building it.  A group that took no part in the
    match would be [None] in [m.groups()], which the test for HIT rejects
    with a [TypeError]. *)
Definition parse_line (line : string) : option (outcome trade) :=
  match search line_re (list_ascii_of_string line) with
  | None => None
  | Some m =>
      Some
        match groups 7 m with
        | [Some ts; Some status_tag; Some symbol; Some pnl; Some cap;
           Some idx; Some total] =>
            let status :=
              if Text.contains (list_ascii_of_string "HIT") status_tag
              then "HIT" else "MISS" in
            let sym := string_of_list_ascii (Text.strip symbol) in
            let? p := py_float pnl in
            let? c := py_float cap in
            let? i := py_int idx in
            let? t := py_int total in
            Ok {| timestamp := string_of_list_ascii ts; status := status;
                  symbol := sym; pnl_usd := p; capital_usd := c;
                  trade_index := i; total_trades := t |}
        | _ => Raise TypeError
        end
  end.

(** The reading loop over the lines of the log, [rows] being the list
    built so far. *)
Fixpoint parse_log (lines : list string) (rows : list trade)
    : outcome (list trade) :=
  match lines with
  | [] => Ok rows
  | line :: rest =>
      match parse_line line with
      | None => parse_log rest rows
      | Some (Ok r) => parse_log rest (rows ++ [r])
      | Some (Raise e) => Raise e
      end
  end.

(** ** The aggregation *)

Record agg := {
  cnt : gmap string Z;
  sum_p : gmap string float;
  hits : gmap string Z;
  miss : gmap string Z;
  max_p : gmap string float;
  min_p : gmap string float
}.

Definition agg_empty : agg :=
  {| cnt := ∅; sum_p := ∅; hits := ∅; miss := ∅; max_p := ∅; min_p := ∅ |}.

(** Reading a [defaultdict(int)] / [defaultdict(float)]: a missing key
    reads as the default.  (The read also stores the default under the
    key; the script reads [hits] and [miss] this way only while writing
    the summary, after which they are not used.) *)
Definition get_int (d : gmap string Z) (k : string) : Z := default 0 (d !! k).
Definition get_float (d : gmap string float) (k : string) : float :=
  default Float64.zero (d !! k).

(** [d[k] += 1] *)
Definition incr (d : gmap string Z) (k : string) : gmap string Z :=
  <[k := get_int d k + 1]> d.

(** The body of the aggregation loop for one row. *)
Definition agg_step (a : agg) (r : trade) : agg :=
  let sym := symbol r in
  let pnl := pnl_usd r in
  {| cnt := incr (cnt a) sym;
     sum_p := <[sym := Float64.add (get_float (sum_p a) sym) pnl]> (sum_p a);
     max_p :=
       match max_p a !! sym with
       | None => <[sym := pnl]> (max_p a)
       | Some m => if Float64.ltb m pnl then <[sym := pnl]> (max_p a) else max_p a
       end;
     min_p :=
       match min_p a !! sym with
       | None => <[sym := pnl]> (min_p a)
       | Some m => if Float64.ltb pnl m then <[sym := pnl]> (min_p a) else min_p a
       end;
     hits := if String.eqb (status r) "HIT" then incr (hits a) sym else hits a;
     miss := if String.eqb (status r) "HIT" then miss a else incr (miss a) sym |}.

Definition aggregate (rows : list trade) : agg :=
  fold_left agg_step rows agg_empty.

(** ** The output tables *)

(** A value handed to [csv.writer]. *)
Inductive cell :=
| CStr (s : string)
| CInt (z : Z)
| CFloat (f : float).

Definition per_trade_header : list cell :=
  map CStr ["timestamp"; "status"; "symbol"; "pnl_usd"; "capital_usd";
            "trade_index"; "total_trades"].

Definition summary_header : list cell :=
  map CStr ["symbol"; "hits"; "misses"; "total"; "win_rate_pct"; "avg_pnl_usd";
            "sum_pnl_usd"; "max_pnl_usd"; "min_pnl_usd"].

Definition trade_cells (r : trade) : list cell :=
  [CStr (timestamp r); CStr (status r); CStr (symbol r); CFloat (pnl_usd r);
   CFloat (capital_usd r); CInt (trade_index r); CInt (total_trades r)].

(** [d[k]] on a plain dictionary. *)
Definition get_item (d : gmap string float) (k : string) : outcome float :=
  match d !! k with
  | Some v => Ok v
  | None => Raise KeyError
  end.

(** [100.0*hits[sym]/tot if tot else 0.0] *)
Definition win_rate (h tot : Z) : outcome float :=
  if tot =? 0 then Ok Float64.zero
  else
    let? hf := Float64.of_int h in
    let? tf := Float64.of_int tot in
    Ok (Float64.div (Float64.mul Float64.hundred hf) tf).

(** [sum_p[sym]/tot if tot else 0.0] *)
Definition average (s : float) (tot : Z) : outcome float :=
  if tot =? 0 then Ok Float64.zero
  else
    let? tf := Float64.of_int tot in
    Ok (Float64.div s tf).

(** The row of the summary for one symbol. *)
Definition summary_row (a : agg) (sym : string) : outcome (list cell) :=
  let tot := get_int (cnt a) sym in
  let? wr := win_rate (get_int (hits a) sym) tot in
  let? avg := average (get_float (sum_p a) sym) tot in
  let? mx := get_item (max_p a) sym in
  let? mn := get_item (min_p a) sym in
  Ok [CStr sym; CInt (get_int (hits a) sym); CInt (get_int (miss a) sym);
      CInt tot; CFloat (Float64.round2 wr); CFloat (Float64.round2 avg);
      CFloat (Float64.round2 (get_float (sum_p a) sym));
      CFloat (Float64.round2 mx); CFloat (Float64.round2 mn)].

(** [sorted(cnt.keys())] *)
Definition sorted_keys (a : agg) : list string :=
  merge_sort String.le (elements (dom (cnt a))).

(** ** The file system and the run *)

Inductive node :=
| Dir
| File (content : string).

Record world := {
  fs : gmap string node;
  stdout : list string
}.

(** A step of the script: it returns or raises, and leaves a world. *)
Definition io (A : Type) : Type := world -> outcome A * world.

Definition io_ret {A} (a : A) : io A := fun w => (Ok a, w).

Definition io_bind {A B} (m : io A) (k : A -> io B) : io B :=
  fun w =>
    match m w with
    | (Ok a, w') => k a w'
    | (Raise e, w') => (Raise e, w')
    end.

Definition io_lift {A} (o : outcome A) : io A := fun w => (o, w).

Notation "'do' x <- m ; k" := (io_bind m (fun x => k))
  (at level 10, x name, m at level 100, k at level 200).
Notation "m ;; k" := (io_bind m (fun _ => k))
  (at level 100, k at level 200, right associativity).

(** The text that [csv.writer] writes for one row. *)
Context (render_row : list cell -> string).

(** [os.makedirs(path, exist_ok=True)] for a path of one component. *)
Definition makedirs (path : string) : io unit :=
  fun w =>
    match fs w !! path with
    | Some Dir => (Ok tt, w)
    | Some (File _) => (Raise FileExistsError, w)
    | None => (Ok tt, {| fs := <[path := Dir]> (fs w); stdout := stdout w |})
    end.

(** [open(path, 'r')] and the reading of the whole file. *)
Definition read_file (path : string) : io string :=
  fun w =>
    match fs w !! path with
    | Some (File content) => (Ok content, w)
    | Some Dir => (Raise IsADirectoryError, w)
    | None => (Raise FileNotFoundError, w)
    end.

(** [open(path, 'w', newline='')]: the file is created or emptied. *)
Definition open_write (path : string) : io unit :=
  fun w =>
    match fs w !! path with
    | Some Dir => (Raise IsADirectoryError, w)
    | _ => (Ok tt, {| fs := <[path := File ""]> (fs w); stdout := stdout w |})
    end.

(** [w.writerow(row)] on the writer of the file at [path]. *)
Definition writerow (path : string) (row : list cell) : io unit :=
  fun w =>
    match fs w !! path with
    | Some (File content) =>
        (Ok tt, {| fs := <[path := File (content +:+ render_row row)]> (fs w);
                   stdout := stdout w |})
    | _ => (Ok tt, w)
    end.

(** [w.writerows(rows)] *)
Fixpoint writerows (path : string) (rows : list (list cell)) : io unit :=
  match rows with
  | [] => io_ret tt
  | row :: rest => writerow path row ;; writerows path rest
  end.

Definition print (line : string) : io unit :=
  fun w => (Ok tt, {| fs := fs w; stdout := stdout w ++ [line] |}).

(** The loop that writes the summary, one symbol at a time. *)
Fixpoint write_summary (path : string) (a : agg) (syms : list string) : io unit :=
  match syms with
  | [] => io_ret tt
  | sym :: rest =>
      do row <- io_lift (summary_row a sym);
      writerow path row ;;
      write_summary path a rest
  end.

Definition log_file : string := "sim2500.log".
Definition out_dir : string := "data".

(** [os.path.join] of a directory name and a file name. *)
Definition path_join (d f : string) : string := d +:+ "/" +:+ f.

Definition per_trade_path : string := path_join out_dir "sim_per_trade.csv".
Definition summary_path : string := path_join out_dir "sim_summary_by_symbol.csv".

(** The script, top to bottom. *)
Definition main : io unit :=
  makedirs out_dir ;;
  do content <- read_file log_file;
  do rows <- io_lift (parse_log (Text.readlines content) []);
  open_write per_trade_path ;;
  writerow per_trade_path per_trade_header ;;
  writerows per_trade_path (map trade_cells rows) ;;
  let a := aggregate rows in
  open_write summary_path ;;
  writerow summary_path summary_header ;;
  write_summary summary_path a (sorted_keys a) ;;
  print per_trade_path ;;
  print summary_path.

End Program.

(** ** Vocabulary of the statements *)

(** The text of a file after [rows] were written to it, starting from
    [content]. *)
Definition written (render_row : list cell -> string) (content : string)
    (rows : list (list cell)) : string :=
  fold_left (fun c row => c +:+ render_row row) rows content.

(** The lines of the log in a world (none when the log cannot be read). *)
Definition log_lines (w : world) : list string :=
  match fs w !! log_file with
  | Some (File content) => Text.readlines content
  | _ => []
  end.

(** The lines of the log that match [line_re]. *)
Definition matching (line : string) : bool :=
  match Regex.search line_re (list_ascii_of_string line) with
  | Some _ => true
  | None => false
  end.

(** The rows of one symbol, in log order, and their profits. *)
Definition rows_of (sym : string) (rows : list trade) : list trade :=
  filter (fun r => symbol r = sym) rows.

Definition pnls_of (sym : string) (rows : list trade) : list float :=
  map pnl_usd (rows_of sym rows).

Definition is_hit (r : trade) : bool := String.eqb (status r) "HIT".

(** The rows of the summary, in the order they are written. *)
Fixpoint summary_rows (a : agg) (syms : list string) : outcome (list (list cell)) :=
  match syms with
  | [] => Ok []
  | sym :: rest =>
      let? row := summary_row a sym in
      let? more := summary_rows a rest in
      Ok (row :: more)
  end.

(** A decimal literal over the digits and the dot: at most one dot and at
    least one digit. *)
Definition decimal_ok (s : list ascii) : bool :=
  (length (filter (fun c => c = "."%char) s) <=? 1)%nat && existsb Text.isdigit s.

(** A run of digits is within the interpreter's limit [d] when the limit
    is disabled or not exceeded. *)
Definition within_limit (d : nat) (s : list ascii) : bool :=
  (d =? 0)%nat || (length s <=? d)%nat.

(** The body of a signed token: the text after a leading minus sign. *)
Definition unsigned_part (s : list ascii) : list ascii :=
  match s with
  | c :: t => if Ascii.eqb c "-"%char then t else s
  | [] => []
  end.

(** Numeric equality of two optional floats ([==] of Python, entry by entry). *)
Definition same_number (x y : option float) : Prop :=
  match x, y with
  | Some a, Some b => Float64.eqb a b = true
  | None, None => True
  | _, _ => False
  end.

(** The shape [dddd/dd/dd dd:dd:dd] followed by a blank. *)
Definition timestamp_shape (s : list ascii) : bool :=
  match s with
  | y1 :: y2 :: y3 :: y4 :: a :: m1 :: m2 :: b :: d1 :: d2 :: c
    :: h1 :: h2 :: e :: n1 :: n2 :: f :: s1 :: s2 :: g :: _ =>
      forallb Text.isdigit [y1; y2; y3; y4; m1; m2; d1; d2; h1; h2; n1; n2; s1; s2]
      && Ascii.eqb a "/" && Ascii.eqb b "/" && Ascii.eqb c " "
      && Ascii.eqb e ":" && Ascii.eqb f ":" && Ascii.eqb g " "
  | _ => false
  end.

(** The rows that the reading loop builds from the log of a world. *)
Definition run_rows (int_max_str_digits : nat) (w : world) : list trade :=
  match parse_log int_max_str_digits (log_lines w) [] with
  | Ok rows => rows
  | Raise _ => []
  end.

(** The extrema as the aggregation loop computes them over the profits of
    one symbol, first to last: the first profit starts the running value. *)
Definition running_max (l : list float) : option float :=
  fold_left (fun acc p =>
               match acc with
               | None => Some p
               | Some m => Some (if Float64.ltb m p then p else m)
               end) l None.

Definition running_min (l : list float) : option float :=
  fold_left (fun acc p =>
               match acc with
               | None => Some p
               | Some m => Some (if Float64.ltb p m then p else m)
               end) l None.

(** The sum as the aggregation loop accumulates it over the profits of one
    symbol: binary64 additions from 0.0, first to last, nothing rounded to
    decimals in between. *)
Definition running_sum (l : list float) : option float :=
  match l with
  | [] => None
  | _ => Some (fold_left Float64.add l Float64.zero)
  end.

(** The number of rows as a Python int, absent when there is none. *)
Definition tally {A} (l : list A) : option Z :=
  match l with
  | [] => None
  | _ => Some (Z.of_nat (length l))
  end.

(** ** Sample data *)

Definition line_hit : string :=
  "2024/01/01 09:00:00 SIM HIT: AAPL | PnL=$12.50 | Capital=$10012.50 | Trades: 1/10".
Definition line_miss : string :=
  "2024/01/01 09:01:00 SIM MISS: AAPL | PnL=$-5.00 | Capital=$10007.50 | Trades: 2/10".
Definition line_two_dots : string :=
  "2024/01/01 09:02:00 SIM HIT: AAPL | PnL=$1.2.3 | Capital=$10012.50 | Trades: 3/10".
Definition line_blank_symbol : string :=
  "2024/01/01 09:03:00 SIM HIT:   | PnL=$1 | Capital=$1 | Trades: 1/1".
Definition line_indented : string := " " +:+ line_miss.
Definition line_no_trades : string :=
  "2024/01/01 09:04:00 SIM HIT: AAPL | PnL=$12.50 | Capital=$10012.50".

Definition line_big : string :=
  "2024/01/01 09:00:00 SIM HIT: A | PnL=$10000000000000000 | Capital=$1 | Trades: 1/3".
Definition line_one : string :=
  "2024/01/01 09:00:01 SIM HIT: A | PnL=$1 | Capital=$1 | Trades: 2/3".
Definition line_minus_big : string :=
  "2024/01/01 09:00:02 SIM MISS: A | PnL=$-10000000000000000 | Capital=$1 | Trades: 3/3".

(** A log file made of the given lines, each ended by a line feed, in an
    otherwise empty world. *)
Definition log_of (lines : list string) : string :=
  fold_right (fun l acc => l +:+ String Text.nl acc) "" lines.

Definition world_of (lines : list string) : world :=
  {| fs := {[ log_file := File (log_of lines) ]}; stdout := [] |}.

(** The rows read from three lines of one symbol, and from the same lines
    with the last two exchanged. *)
Definition rows_in_order : list trade :=
  run_rows 4300 (world_of [line_big; line_one; line_minus_big]).
Definition rows_exchanged : list trade :=
  run_rows 4300 (world_of [line_big; line_minus_big; line_one]).

(** A writer that prints the text cells and the integers of a row. *)
Definition show_cell (c : cell) : string :=
  match c with
  | CStr s => s
  | CInt z => if z <? 0 then "-" else "+"
  | CFloat _ => "#"
  end.

Definition show_row (row : list cell) : string :=
  fold_right (fun c acc => show_cell c +:+ "," +:+ acc) (String Text.nl "") row.

(** ** Vocabulary of the further properties *)

(** The sign bit of a float. *)
Definition negative (x : float) : bool :=
  match x with
  | S754_zero s | S754_infinity s | S754_finite s _ _ => s
  | S754_nan => false
  end.

(** An action of the script leaves every path outside [paths] as it was,
    whether it returns or raises. *)
Definition modifies_only {A} (paths : list string) (m : io A) : Prop :=
  forall w p, p ∉ paths -> fs (snd (m w)) !! p = fs w !! p.

(** An action of the script prints nothing. *)
Definition silent {A} (m : io A) : Prop :=
  forall w, stdout (snd (m w)) = stdout w.

(** An action of the script that raises has printed nothing. *)
Definition quiet_on_failure {A} (m : io A) : Prop :=
  forall w e w', m w = (Raise e, w') -> stdout w' = stdout w.

(** The world a run that returns leaves: the output directory, then the
    two tables written from scratch, and the two paths printed. *)
Definition world_after (render_row : list cell -> string) (w : world)
    (rows : list trade) (srows : list (list cell)) : world :=
  {| fs := <[summary_path :=
               File (written render_row "" (summary_header :: srows))]>
             (<[per_trade_path :=
                  File (written render_row ""
                          (per_trade_header :: map trade_cells rows))]>
                (<[out_dir := Dir]> (fs w)));
     stdout := stdout w ++ [per_trade_path; summary_path] |}.

(** ** Vocabulary of the reading and of the rounding

    What the script reads and what it rounds, said without the functions
    that do it. *)

(** Universal newlines, as a relation between the characters of a file and
    the characters read from it: CR LF and a CR that no LF follows are read
    as LF, every other character as itself. *)
Inductive universal_newlines : list ascii -> list ascii -> Prop :=
| un_end : universal_newlines [] []
| un_crlf s t :
    universal_newlines s t ->
    universal_newlines (Text.cr :: Text.nl :: s) (Text.nl :: t)
| un_cr s t :
    head s <> Some Text.nl -> universal_newlines s t ->
    universal_newlines (Text.cr :: s) (Text.nl :: t)
| un_char c s t :
    c <> Text.cr -> universal_newlines s t ->
    universal_newlines (c :: s) (c :: t).

(** A text cut into its lines: a line ends at the first LF and keeps it;
    what follows the last LF, if anything does, is the last line. *)
Inductive cut_into_lines : list ascii -> list (list ascii) -> Prop :=
| cut_end : cut_into_lines [] []
| cut_last body :
    body <> [] -> Text.nl ∉ body -> cut_into_lines body [body]
| cut_line body text lines :
    Text.nl ∉ body -> cut_into_lines text lines ->
    cut_into_lines (body ++ Text.nl :: text) ((body ++ [Text.nl]) :: lines).



(** [k] is the integer nearest to the fraction [n / q] ([0 < q]), the even
    one of the two when [n / q] lies half way between them. *)
Definition nearest_integer (n q k : Z) : Prop :=
  2 * Z.abs (n - k * q) <= q /\ (2 * Z.abs (n - k * q) = q -> Z.even k = true).

(** [c] is [v] rounded to two decimals.  A finite [v] has the magnitude
    [m * 2 ^ e], which is [100 * m * 2 ^ max e 0] over [2 ^ max (- e) 0]
    hundredths; [k] is the integer nearest to that fraction, and [c] is
    what [float] reads from the decimal that writes [k] hundredths with
    two digits after the point, under the sign of [v].  Zeros, infinities
    and NaN are kept. *)
Definition rounded_to_cents (v c : float) : Prop :=
  match v with
  | S754_finite s m e =>
      exists (k : Z) (ip fp : list ascii),
        nearest_integer (100 * Zpos m * 2 ^ Z.max e 0) (2 ^ Z.max (- e) 0) k /\
        ip <> [] /\ length fp = 2%nat /\
        digits_value 0 (ip ++ fp) = Some k /\
        py_float ((if s then ["-"%char] else []) ++ ip ++ "."%char :: fp) = Ok c
  | _ => c = v
  end.

(** * Properties *)

(** ** The matcher is sound for the declarative reading *)

Section MatcherSound.
Import Regex.
Context {R : Type}.
Implicit Types (k : @cont R) (s w : list ascii) (caps : captures).

Lemma or_else_Some (a b : option R) res :
  or_else a b = Some res -> a = Some res \/ b = Some res.
Proof. destruct a; simpl; auto. Qed.

Lemma starts_with_split l s :
  Text.starts_with l s = true -> s = l ++ drop (length l) s.
Proof.
  revert s. induction l as [|a l IH]; intros [|b s]; simpl; try done.
  destruct (Ascii.eqb_spec a b) as [->|]; [|done].
  intros H. f_equal. by apply IH.
Qed.

Lemma rep_match_sound g p lo hi pos s caps k res :
  rep_match g p lo hi pos s caps k = Some res ->
  exists w s', s = w ++ s' /\ Forall (fun c => p c = true) w /\
    (lo <= length w)%nat /\ (forall h, hi = Some h -> (length w <= h)%nat) /\
    k (pos + length w)%nat s' caps = Some res.
Proof.
  revert lo hi pos. induction s as [|c s IH]; intros lo hi pos H.
  - exists [], []. simpl in H.
    assert (Hk : k pos [] caps = Some res /\ lo = O).
    { destruct lo, g; simpl in H; try done; split; auto.
      by destruct (k pos [] caps). }
    destruct Hk as [Hk ->]. simpl. rewrite Nat.add_0_r.
    repeat split; auto; intros; lia.
  - assert (Hstop : (match lo with O => k pos (c :: s) caps | S _ => None end) = Some res ->
      exists w s', c :: s = w ++ s' /\ Forall (fun c => p c = true) w /\
        (lo <= length w)%nat /\ (forall h, hi = Some h -> (length w <= h)%nat) /\
        k (pos + length w)%nat s' caps = Some res).
    { destruct lo; [|done]. intros Hk. exists [], (c :: s).
      simpl. rewrite Nat.add_0_r. repeat split; auto; intros; lia. }
    assert (Hmore : (if p c then
              match hi with
              | Some O => None
              | Some (S h) => rep_match g p (Nat.pred lo) (Some h) (S pos) s caps k
              | None => rep_match g p (Nat.pred lo) None (S pos) s caps k
              end
            else None) = Some res ->
      exists w s', c :: s = w ++ s' /\ Forall (fun c => p c = true) w /\
        (lo <= length w)%nat /\ (forall h, hi = Some h -> (length w <= h)%nat) /\
        k (pos + length w)%nat s' caps = Some res).
    { destruct (p c) eqn:Hp; [|done]. intros Hm.
      assert (exists hi', rep_match g p (Nat.pred lo) hi' (S pos) s caps k = Some res /\
                (forall n, (forall h, hi' = Some h -> (n <= h)%nat) ->
                           forall h, hi = Some h -> (S n <= h)%nat))
        as (hi' & Hrec & Hhi).
      { destruct hi as [[|h]|]; [done| |].
        - exists (Some h). split; [done|]. intros n Hn h' [= <-].
          specialize (Hn h eq_refl). lia.
        - exists None. split; [done|]. intros n _ h' [=]. }
      apply IH in Hrec as (w & s' & -> & Hall & Hlo & Hbound & Hk).
      exists (c :: w), s'. simpl. repeat split; auto.
      + lia.
      + by rewrite <- Nat.add_succ_comm. }
    simpl in H. destruct g; apply or_else_Some in H as [H|H]; auto.
Qed.

Lemma rmatch_sound r : forall pos s caps k res,
  rmatch r pos s caps k = Some res ->
  exists w s' caps', s = w ++ s' /\ matches r pos w caps caps' /\
    k (pos + length w)%nat s' caps' = Some res.
Proof.
  induction r as [|l|g lo hi p|r1 IH1 r2 IH2|r1 IH1 r2 IH2|n r IH];
    intros pos s caps k res H; simpl in H.
  - destruct pos; [|done]. exists [], s, caps. repeat split; auto. constructor.
  - destruct (Text.starts_with l s) eqn:Hl; [|done].
    exists l, (drop (length l) s), caps. repeat split; auto using starts_with_split.
    constructor.
  - apply rep_match_sound in H as (w & s' & -> & Hall & Hlo & Hhi & Hk).
    exists w, s', caps. repeat split; auto. by constructor.
  - apply or_else_Some in H as [H|H].
    + apply IH1 in H as (w & s' & caps' & -> & Hm & Hk).
      exists w, s', caps'. repeat split; auto. by apply M_alt_l.
    + apply IH2 in H as (w & s' & caps' & -> & Hm & Hk).
      exists w, s', caps'. repeat split; auto. by apply M_alt_r.
  - apply IH1 in H as (w1 & s1 & caps1 & -> & Hm1 & H).
    apply IH2 in H as (w2 & s2 & caps2 & -> & Hm2 & Hk).
    exists (w1 ++ w2), s2, caps2. rewrite <- app_assoc. repeat split; auto.
    + by econstructor.
    + by rewrite length_app, Nat.add_assoc.
  - apply IH in H as (w & s' & caps' & -> & Hm & Hk).
    exists w, s', (<[n := w]> caps'). repeat split; auto.
    + by constructor.
    + replace (pos + length w - pos)%nat with (length w) in Hk by lia.
      by rewrite take_app_length in Hk.
Qed.

End MatcherSound.

Lemma search_from_sound r pos s caps :
  Regex.search_from r pos s = Some caps ->
  exists pre w rest, s = pre ++ w ++ rest /\
    Regex.matches r (pos + length pre) w ∅ caps.
Proof.
  revert pos. induction s as [|c s IH]; intros pos H; simpl in H.
  - destruct (Regex.rmatch _ _ _ _ _) eqn:Hm; [|done].
    apply rmatch_sound in Hm as (w & s' & caps' & Hs & Hm & Hk).
    simplify_eq. exists [], w, s'. rewrite Nat.add_0_r. by split.
  - destruct (Regex.rmatch _ _ _ _ _) eqn:Hm.
    + apply rmatch_sound in Hm as (w & s' & caps' & Hs & Hm & Hk).
      simplify_eq. exists [], w, s'. rewrite Nat.add_0_r. by split.
    + apply IH in H as (pre & w & rest & -> & Hm').
      exists (c :: pre), w, rest. split; [done|].
      simpl. by rewrite <- Nat.add_succ_comm.
Qed.

(** ** The matcher finds a match whenever the declarative reading has one *)

Section MatcherComplete.
Import Regex.
Context {R : Type}.
Implicit Types (k : @cont R) (s w : list ascii) (caps : captures).

Lemma or_else_is_Some (a b : option R) :
  is_Some a \/ is_Some b -> is_Some (or_else a b).
Proof. destruct a; simpl; [by eauto|]. by intros [[? [=]]|?]. Qed.

Lemma rep_match_unfold g p lo hi pos s caps k :
  rep_match g p lo hi pos s caps k =
  let stop := match lo with O => k pos s caps | S _ => None end in
  let more :=
    match s with
    | c :: s' =>
        if p c then
          match hi with
          | Some O => None
          | Some (S h) => rep_match g p (Nat.pred lo) (Some h) (S pos) s' caps k
          | None => rep_match g p (Nat.pred lo) None (S pos) s' caps k
          end
        else None
    | [] => None
    end in
  if g then or_else more stop else or_else stop more.
Proof. by destruct s. Qed.

Lemma starts_with_app l s : Text.starts_with l (l ++ s) = true.
Proof.
  induction l as [|a l IH]; simpl; [by destruct s|]. by rewrite Ascii.eqb_refl.
Qed.

Lemma rep_match_complete g p w : forall lo hi pos s' caps k,
  Forall (fun c => p c = true) w ->
  (lo <= length w)%nat -> (forall h, hi = Some h -> (length w <= h)%nat) ->
  is_Some (k (pos + length w)%nat s' caps) ->
  is_Some (rep_match g p lo hi pos (w ++ s') caps k).
Proof.
  induction w as [|c w IH]; intros lo hi pos s' caps k Hw Hlo Hhi Hk;
    rewrite rep_match_unfold; cbv zeta.
  - simpl in Hlo, Hk. rewrite Nat.add_0_r in Hk.
    destruct lo; [|lia]. simpl app.
    destruct g; apply or_else_is_Some; auto.
  - apply Forall_cons in Hw as [Hc Hw]. rewrite <- app_comm_cons. cbv iota.
    rewrite Hc.
    simpl in Hlo, Hk. rewrite Nat.add_succ_r in Hk.
    assert (Hmore : is_Some
      match hi with
      | Some O => None
      | Some (S h) => rep_match g p (Nat.pred lo) (Some h) (S pos) (w ++ s') caps k
      | None => rep_match g p (Nat.pred lo) None (S pos) (w ++ s') caps k
      end).
    { destruct hi as [[|h]|].
      - specialize (Hhi 0%nat eq_refl). simpl in Hhi. lia.
      - apply IH; auto; [lia|]. intros h' [= <-].
        specialize (Hhi (S h) eq_refl). simpl in Hhi. lia.
      - apply IH; auto; [lia|]. by intros h' [=]. }
    destruct g; apply or_else_is_Some; auto.
Qed.

Lemma rmatch_complete r pos w caps caps' :
  matches r pos w caps caps' ->
  forall s' k, is_Some (k (pos + length w)%nat s' caps') ->
               is_Some (rmatch r pos (w ++ s') caps k).
Proof.
  induction 1 as [caps|l pos caps|g lo hi p pos w caps Hw Hlo Hhi
                  |r1 r2 pos w caps caps' _ IH|r1 r2 pos w caps caps' _ IH
                  |r1 r2 pos w1 w2 caps caps1 caps2 _ IH1 _ IH2
                  |n r pos w caps caps' _ IH]; intros s' k Hk; simpl.
  - done.
  - by rewrite starts_with_app, drop_app_length.
  - by apply rep_match_complete.
  - apply or_else_is_Some. left. by apply IH.
  - apply or_else_is_Some. right. by apply IH.
  - rewrite <- app_assoc. apply IH1. apply IH2.
    by rewrite length_app, Nat.add_assoc in Hk.
  - apply IH. replace (pos + length w - pos)%nat with (length w) by lia.
    by rewrite take_app_length.
Qed.

End MatcherComplete.

Lemma search_from_complete r pre : forall pos w rest caps,
  Regex.matches r (pos + length pre) w ∅ caps ->
  is_Some (Regex.search_from r pos (pre ++ w ++ rest)).
Proof.
  induction pre as [|c pre IH]; intros pos w rest caps Hm.
  - simpl in Hm. rewrite Nat.add_0_r in Hm.
    assert (Hr : is_Some (Regex.rmatch r pos (w ++ rest) ∅ (fun _ _ c => Some c)))
      by (eapply rmatch_complete; eauto).
    destruct Hr as [c Hr]. simpl app.
    destruct (w ++ rest); simpl; by rewrite Hr.
  - simpl. destruct (Regex.rmatch _ _ _ _ _); [done|].
    apply (IH (S pos) w rest caps). simpl in Hm. by rewrite Nat.add_succ_comm.
Qed.

(** A line matches, for the parser, exactly when some part of it is in
    the language of [line_re]; the part then starts the line. *)
Lemma matching_iff_matches line :
  matching line = true <->
  exists w rest caps,
    list_ascii_of_string line = w ++ rest /\ Regex.matches line_re 0 w ∅ caps.
Proof.
  unfold matching, Regex.search. split.
  - destruct (Regex.search_from _ _ _) as [caps|] eqn:Hs; [intros _|done].
    apply search_from_sound in Hs as (pre & w & rest & Hline & Hm).
    assert (pre = []) as ->.
    { unfold line_re in Hm. inversion Hm; subst.
      match goal with H : Regex.matches Regex.Bol _ _ _ _ |- _ => inversion H end.
      destruct pre; [done|]. simpl in *. lia. }
    by exists w, rest, caps.
  - intros (w & rest & caps & Hline & Hm). rewrite Hline.
    destruct (search_from_complete line_re [] 0 w rest caps Hm) as [c Hc].
    simpl in Hc. by rewrite Hc.
Qed.

(** ** What a match of [line_re] looks like *)

Ltac invert_matches :=
  repeat match goal with
  | H : Regex.matches (Regex.Seq _ _) _ _ _ _ |- _ => inversion H; clear H; subst
  | H : Regex.matches (Regex.Group _ _) _ _ _ _ |- _ => inversion H; clear H; subst
  | H : Regex.matches (Regex.Lit _) _ _ _ _ |- _ => inversion H; clear H; subst
  | H : Regex.matches (Regex.Rep _ _ _ _) _ _ _ _ |- _ => inversion H; clear H; subst
  | H : Regex.matches Regex.Bol _ _ _ _ |- _ => inversion H; clear H; subst
  end.

Ltac fixed_length w :=
  match goal with
  | Hlo : (_ <= length w)%nat, Hhi : forall h, Some _ = Some h -> (length w <= h)%nat |- _ =>
      let Hb := fresh in
      pose proof (Hhi _ eq_refl) as Hb; clear Hhi;
      repeat (destruct w as [|? w]; simpl in Hlo, Hb; try lia);
      clear Hlo Hb
  end.

Lemma nonempty_of_length {A} (l : list A) : (1 <= length l)%nat -> l <> [].
Proof. by destruct l; simpl; [lia|]. Qed.

Lemma none_of_pipe c : Regex.none_of ["|"%char] c = true -> c <> "|"%char.
Proof. intros H ->. by vm_compute in H. Qed.

Lemma optional_minus w :
  Forall (fun c => Regex.one_of ["-"%char] c = true) w -> (length w <= 1)%nat ->
  w = [] \/ w = ["-"%char].
Proof.
  destruct w as [|c [|d w]]; simpl; auto; [|lia].
  intros Hc _. right. apply Forall_cons in Hc as [Hc _].
  unfold Regex.one_of in Hc. simpl in Hc.
  destruct (Ascii.eqb_spec c "-"%char); by subst.
Qed.

Lemma line_re_match_inv s m :
  Regex.search line_re s = Some m ->
  exists ts junk tag sp sym sgn pnl cap idx total rest,
    s = ts ++ " "%char :: junk ++ tag ++ sp ++ sym
          ++ list_ascii_of_string " | PnL=$" ++ (sgn ++ pnl)
          ++ list_ascii_of_string " | Capital=$" ++ cap
          ++ list_ascii_of_string " | Trades: " ++ idx ++ "/"%char :: total ++ rest /\
    timestamp_shape (ts ++ " "%char :: junk ++ tag) = true /\
    length ts = 19%nat /\
    (tag = list_ascii_of_string "HIT:" \/ tag = list_ascii_of_string "MISS:") /\
    Forall (fun c => Text.isspace c = true) sp /\ sp <> [] /\
    Forall (fun c => c <> "|"%char) sym /\ sym <> [] /\
    (sgn = [] \/ sgn = ["-"%char]) /\
    Forall (fun c => number_chars c = true) pnl /\ pnl <> [] /\
    Forall (fun c => number_chars c = true) cap /\ cap <> [] /\
    Forall (fun c => Text.isdigit c = true) idx /\ idx <> [] /\
    Forall (fun c => Text.isdigit c = true) total /\ total <> [] /\
    Regex.groups 7 m =
      [Some ts; Some tag; Some sym; Some (sgn ++ pnl); Some cap; Some idx; Some total].
Proof.
  intros H. apply search_from_sound in H as (pre & w & rest & -> & H).
  unfold line_re, timestamp_re, lit, Regex.times, Regex.plus, Regex.opt,
    Regex.lazy_star in H.
  invert_matches.
  match goal with H : O = _ |- _ =>
    destruct pre; [clear H|simpl in H; lia] end.
  match goal with H : Regex.matches (Regex.Alt _ _) _ ?t ?c ?c' |- _ =>
    assert (Htag : (t = list_ascii_of_string "HIT:" \/ t = list_ascii_of_string "MISS:")
                   /\ c' = c)
      by (inversion H; subst; invert_matches; auto);
    clear H; destruct Htag as [Htag ->]
  end.
  match goal with
  | H : Forall (fun c => Regex.one_of _ c = true) ?w,
    Hlo : (0 <= length ?w)%nat, Hhi : forall h, Some 1%nat = Some h -> _ |- _ =>
      pose proof (optional_minus w H (Hhi _ eq_refl)) as Hsgn; clear H Hlo Hhi
  end.
  repeat match goal with
  | H : forall h, Some _ = Some h -> (length ?w <= h)%nat |- _ => fixed_length w
  end.
  repeat match goal with
  | H : forall h, None = Some h -> _ |- _ => clear H
  end.
  repeat match goal with
  | H : (1 <= length _)%nat |- _ => apply nonempty_of_length in H
  end.
  match goal with
  | Hj : Forall (fun c => Regex.dot c = true) ?junk,
    Hs : Forall (fun c => Regex.space c = true) ?sp
    |- context [Regex.groups 7 (<[7%nat:=?total]> (<[6%nat:=?idx]> (<[5%nat:=?cap]>
         (<[4%nat:=?sgn ++ ?pnl]> (<[3%nat:=?sym]> (<[2%nat:=?tag]>
         (<[1%nat:=?ts]> ∅)))))))] =>
      exists ts, junk, tag, sp, sym, sgn, pnl, cap, idx, total, rest
  end.
  decompose_Forall_hyps. unfold Regex.digit, Regex.space in *.
  split; [by simplify_list_eq|].
  split.
  { simpl. repeat match goal with
           | H : Text.isdigit _ = true |- _ => rewrite H; clear H
           end. reflexivity. }
  repeat split; auto.
  eapply Forall_impl; [eassumption|]. intros c. apply none_of_pipe.
Qed.

(** ** The numeric conversions on captured tokens *)

Lemma digits_value_digits s : forall acc,
  Forall (fun c => Text.isdigit c = true) s -> exists z, digits_value acc s = Some z.
Proof.
  induction s as [|c s IH]; intros acc Hs; simpl; [by eexists|].
  apply Forall_cons in Hs as [Hc Hs]. unfold Text.isdigit in Hc.
  destruct (Text.digit_value c); [|done]. by apply IH.
Qed.

Lemma digits_value_only_digits s : forall acc z,
  digits_value acc s = Some z -> Forall (fun c => Text.isdigit c = true) s.
Proof.
  induction s as [|c s IH]; intros acc z H; simpl in H; [constructor|].
  destruct (Text.digit_value c) eqn:Hc; [|done].
  constructor; [unfold Text.isdigit; by rewrite Hc|by eapply IH].
Qed.

Lemma py_int_digits d s :
  Forall (fun c => Text.isdigit c = true) s -> s <> [] ->
  if within_limit d s then exists z, py_int d s = Ok z
  else py_int d s = Raise ValueError.
Proof.
  intros Hs Hne. unfold py_int, within_limit. destruct s as [|c s]; [done|].
  destruct (digits_value_digits (c :: s) 0 Hs) as [z ->].
  destruct d as [|d]; [by exists z|]. change (S d =? 0)%nat with false.
  change (0 <? S d)%nat with true. cbn [orb andb].
  destruct (Nat.leb_spec (length (c :: s)) (S d)) as [Hle|Hlt].
  - destruct (Nat.ltb_spec (S d) (length (c :: s))); [lia|]. by exists z.
  - by destruct (Nat.ltb_spec (S d) (length (c :: s))); [|lia].
Qed.

Lemma py_int_cases d s :
  (exists z, py_int d s = Ok z) \/ py_int d s = Raise ValueError.
Proof.
  unfold py_int. destruct s; [by right|].
  destruct (digits_value 0 _); [|by right].
  destruct (_ && _); [by right|left; by eexists].
Qed.

Lemma number_chars_cases c :
  number_chars c = true -> Text.isdigit c = true \/ c = "."%char.
Proof. destruct c as [[] [] [] [] [] [] [] []]; vm_compute; auto. Qed.

Lemma isdigit_not_dot c : Text.isdigit c = true -> c <> "."%char.
Proof. intros H ->. by vm_compute in H. Qed.

(** [split_dot] cuts a text of digits and dots at its first dot. *)
Lemma split_dot_spec s :
  Forall (fun c => number_chars c = true) s ->
  match split_dot s with
  | (ip, None) => s = ip /\ Forall (fun c => Text.isdigit c = true) ip
  | (ip, Some fp) =>
      s = ip ++ "."%char :: fp /\ Forall (fun c => Text.isdigit c = true) ip /\
      Forall (fun c => number_chars c = true) fp
  end.
Proof.
  induction s as [|c s IH]; intros Hs; simpl; [by split|].
  apply Forall_cons in Hs as [Hc Hs]. specialize (IH Hs).
  destruct (Ascii.eqb_spec c "."%char) as [->|Hne]; [by repeat split|].
  destruct (number_chars_cases c Hc) as [Hd|]; [|done].
  destruct (split_dot s) as [ip [fp|]].
  - destruct IH as (-> & Hip & Hfp). repeat split; auto.
  - destruct IH as (-> & Hip). repeat split; auto.
Qed.

Lemma dots_of_digits s :
  Forall (fun c => Text.isdigit c = true) s ->
  filter (fun c => c = "."%char) s = [].
Proof.
  induction 1 as [|c s Hc _ IH]; [done|].
  rewrite filter_cons. destruct (decide (c = "."%char)) as [->|]; [|done].
  by vm_compute in Hc.
Qed.

Lemma digits_of_no_dots s :
  Forall (fun c => number_chars c = true) s ->
  filter (fun c => c = "."%char) s = [] ->
  Forall (fun c => Text.isdigit c = true) s.
Proof.
  induction 1 as [|c s Hc _ IH]; [done|].
  rewrite filter_cons. destruct (decide (c = "."%char)); [done|].
  intros Hf. constructor; [|by apply IH].
  by destruct (number_chars_cases c Hc).
Qed.

Lemma existsb_digit_digits s :
  Forall (fun c => Text.isdigit c = true) s -> s <> [] -> existsb Text.isdigit s = true.
Proof. destruct 1 as [|c s Hc _]; [done|]. simpl. by rewrite Hc. Qed.

Lemma existsb_digit_app s t :
  existsb Text.isdigit (s ++ "."%char :: t) = existsb Text.isdigit (s ++ t).
Proof. rewrite !existsb_app. simpl. done. Qed.

(** On a text of digits and dots [decimal_ok] says when the digits around
    the first dot form a number. *)
Lemma decimal_ok_spec s :
  Forall (fun c => number_chars c = true) s ->
  decimal_ok s = true <->
  match split_dot s with
  | (ip, fp) =>
      ip ++ default [] fp <> [] /\
      Forall (fun c => Text.isdigit c = true) (ip ++ default [] fp)
  end.
Proof.
  intros Hs. pose proof (split_dot_spec s Hs) as Hsplit.
  destruct (split_dot s) as [ip [fp|]]; simpl.
  - destruct Hsplit as (-> & Hip & Hfp). unfold decimal_ok.
    rewrite filter_app, filter_cons, (dots_of_digits ip Hip), existsb_digit_app.
    destruct (decide ("."%char = "."%char)) as [_|]; [|done]. simpl.
    rewrite andb_true_iff, Nat.leb_le. split.
    + intros [Hdots Hex]. split.
      { intros Hnil. by rewrite Hnil in Hex. }
      apply Forall_app. split; [done|].
      destruct (filter _ fp) as [|? ?] eqn:Hf; [|simpl in Hdots; lia].
      by apply digits_of_no_dots.
    + intros [Hne Hall]. pose proof Hall as Hall'.
      apply Forall_app in Hall' as [_ Hfp'].
      rewrite (dots_of_digits fp Hfp'). split; [simpl; lia|].
      by apply existsb_digit_digits.
  - destruct Hsplit as (-> & Hip). rewrite app_nil_r. unfold decimal_ok.
    rewrite (dots_of_digits ip Hip). simpl. split.
    + intros Hex. split; [|done]. intros ->. done.
    + intros [Hne _]. by apply existsb_digit_digits.
Qed.

Lemma number_chars_not_sign c :
  number_chars c = true -> Ascii.eqb c "-"%char = false /\ Ascii.eqb c "+"%char = false.
Proof. destruct c as [[] [] [] [] [] [] [] []]; vm_compute; auto. Qed.

Lemma unsigned_part_token sgn body :
  (sgn = [] \/ sgn = ["-"%char]) ->
  Forall (fun c => number_chars c = true) body ->
  unsigned_part (sgn ++ body) = body.
Proof.
  intros [->| ->] Hb; simpl; [|done].
  destruct Hb as [|c body Hc _]; [done|].
  simpl. by destruct (number_chars_not_sign c Hc) as [-> _].
Qed.

(** [float] on a token of the pattern: it returns exactly when the token
    is a decimal literal, and raises [ValueError] otherwise. *)
Lemma py_float_token sgn body :
  (sgn = [] \/ sgn = ["-"%char]) ->
  Forall (fun c => number_chars c = true) body ->
  if decimal_ok body
  then exists f, py_float (sgn ++ body) = Ok f
  else py_float (sgn ++ body) = Raise ValueError.
Proof.
  intros Hsgn Hb. pose proof (decimal_ok_spec body Hb) as Hok.
  assert (Hpy : exists neg, py_float (sgn ++ body) =
    let '(ip, fp) := split_dot body in
    let fp := default [] fp in
    match ip ++ fp with
    | [] => Raise ValueError
    | ds =>
        match digits_value 0 ds with
        | Some (Zpos n) =>
            Ok (Float64.of_ratio neg n (Z.to_pos (10 ^ Z.of_nat (length fp))))
        | Some _ => Ok (S754_zero neg)
        | None => Raise ValueError
        end
    end).
  { destruct Hsgn as [-> | ->]; [exists false|exists true; done].
    destruct Hb as [|c body Hc _]; [done|].
    unfold py_float. simpl app.
    by destruct (number_chars_not_sign c Hc) as [-> ->]. }
  destruct Hpy as [neg ->]. destruct (split_dot body) as [ip fp].
  cbv zeta. set (ds := ip ++ default [] fp) in *. clearbody ds.
  destruct (decimal_ok body).
  - destruct Hok as [Hok _]. destruct (Hok eq_refl) as [Hne Hall].
    destruct (digits_value_digits _ 0 Hall) as [z Hz].
    destruct ds as [|a l]; [done|]. rewrite Hz. destruct z; by eexists.
  - destruct ds as [|a l]; [done|].
    destruct (digits_value 0 (a :: l)) as [z|] eqn:Hz; [|done].
    apply digits_value_only_digits in Hz.
    destruct Hok as [_ Hok]. by discriminate Hok.
Qed.

(** ** Floats: no conversion of a token yields a NaN *)

Lemma iter_pos_invariant {A} (P : A -> Prop) (f : A -> A) :
  (forall x, P x -> P (f x)) -> forall n x, P x -> P (SpecFloat.iter_pos f n x).
Proof. intros Hf. induction n; simpl; auto. Qed.

Lemma shr_1_nonneg mrs : 0 <= shr_m mrs -> 0 <= shr_m (shr_1 mrs).
Proof. destruct mrs as [[|[p|p|]|[p|p|]] r s]; simpl; lia. Qed.

Lemma shr_nonneg mrs e n : 0 <= shr_m mrs -> 0 <= shr_m (fst (shr mrs e n)).
Proof.
  destruct n; simpl; auto. intros H.
  by apply (iter_pos_invariant (fun mrs => 0 <= shr_m mrs)); [apply shr_1_nonneg|].
Qed.

Lemma shr_fexp_nonneg pr em m e l :
  0 <= m -> 0 <= shr_m (fst (shr_fexp pr em m e l)).
Proof. intros H. apply shr_nonneg. by destruct l as [|[]]. Qed.

Lemma round_nearest_even_nonneg m l : 0 <= m -> 0 <= round_nearest_even m l.
Proof. destruct l as [|[]]; simpl; try lia. destruct (Z.even m); lia. Qed.

Lemma binary_round_aux_not_nan pr em s m e l :
  0 <= m -> Float64.is_nan (binary_round_aux pr em s m e l) = false.
Proof.
  intros Hm. unfold binary_round_aux.
  pose proof (shr_fexp_nonneg pr em m e l Hm) as H1.
  destruct (shr_fexp pr em m e l) as [mrs' e']. simpl in H1.
  pose proof (shr_fexp_nonneg pr em _ e' loc_Exact
    (round_nearest_even_nonneg _ (loc_of_shr_record mrs') H1)) as H2.
  destruct (shr_fexp pr em (round_nearest_even _ _) e' loc_Exact) as [mrs'' e''].
  simpl in H2. destruct (shr_m mrs''); [done| |lia].
  by destruct (_ <=? _).
Qed.

Lemma of_ratio_not_nan neg n d : Float64.is_nan (Float64.of_ratio neg n d) = false.
Proof.
  unfold Float64.of_ratio, SFdiv_core_binary.
  set (m' := match _ - _ with Z0 => _ | Zpos _ => _ | Zneg _ => _ end).
  assert (Hm' : 0 <= m').
  { subst m'. destruct (_ - _); try lia. apply Z.shiftl_nonneg. lia. }
  pose proof (Z_div_mod m' (Zpos d) eq_refl) as Hdiv.
  destruct (Z.div_eucl m' (Zpos d)) as [q r].
  apply binary_round_aux_not_nan. nia.
Qed.

Lemma py_float_not_nan s f : py_float s = Ok f -> Float64.is_nan f = false.
Proof.
  unfold py_float. destruct (match s with [] => _ | _ => _ end) as [neg body].
  destruct (split_dot body) as [ip fp].
  destruct (ip ++ default [] fp); [done|].
  destruct (digits_value 0 _) as [[| |]|]; intros [= <-]; auto using of_ratio_not_nan.
Qed.

(** ** Floats: the comparison is a total preorder away from NaN *)

Ltac compare_cases :=
  repeat match goal with
  | H : context [Pos.compare_cont Eq ?a ?b] |- _ =>
      change (Pos.compare_cont Eq a b) with (Pos.compare a b) in H
  | |- context [Pos.compare_cont Eq ?a ?b] =>
      change (Pos.compare_cont Eq a b) with (Pos.compare a b)
  end;
  repeat match goal with
  | H : context [Z.compare ?a ?b] |- _ => destruct (Z.compare_spec a b); simpl in H
  | H : context [Pos.compare ?a ?b] |- _ => destruct (Pos.compare_spec a b); simpl in H
  | |- context [Z.compare ?a ?b] => destruct (Z.compare_spec a b); simpl
  | |- context [Pos.compare ?a ?b] => destruct (Pos.compare_spec a b); simpl
  end;
  try done; try lia.

Ltac float_cases x :=
  destruct x as [[]|[]| |[] ? ?]; try done.

Lemma leb_refl x : Float64.is_nan x = false -> Float64.leb x x = true.
Proof.
  float_cases x; intros _; unfold Float64.leb, SFleb, SFcompare; compare_cases.
Qed.

Lemma leb_trans x y z :
  Float64.leb x y = true -> Float64.leb y z = true -> Float64.leb x z = true.
Proof.
  unfold Float64.leb, SFleb, SFcompare.
  float_cases x; float_cases y; float_cases z; intros H1 H2; compare_cases.
Qed.

Lemma ltb_leb x y : Float64.ltb x y = true -> Float64.leb x y = true.
Proof.
  unfold Float64.ltb, Float64.leb, SFltb, SFleb.
  by destruct (SFcompare x y) as [[]|].
Qed.

Lemma not_ltb_leb x y :
  Float64.is_nan x = false -> Float64.is_nan y = false ->
  Float64.ltb x y = false -> Float64.leb y x = true.
Proof.
  unfold Float64.ltb, Float64.leb, SFltb, SFleb, SFcompare.
  float_cases x; float_cases y; intros _ _ H; compare_cases.
Qed.

Lemma leb_not_ltb x y : Float64.leb x y = true -> Float64.ltb y x = false.
Proof.
  unfold Float64.ltb, Float64.leb, SFltb, SFleb, SFcompare.
  float_cases x; float_cases y; intros H; compare_cases.
Qed.

Lemma leb_antisym_eqb x y :
  Float64.leb x y = true -> Float64.leb y x = true -> Float64.eqb x y = true.
Proof.
  unfold Float64.eqb, Float64.leb, SFeqb, SFleb, SFcompare.
  float_cases x; float_cases y; intros H1 H2; compare_cases.
Qed.

(** ** The aggregation, symbol by symbol *)

Lemma aggregate_snoc rows r :
  aggregate (rows ++ [r]) = agg_step (aggregate rows) r.
Proof. unfold aggregate. by rewrite fold_left_app. Qed.

Lemma rows_of_snoc sym rows r :
  rows_of sym (rows ++ [r]) =
  rows_of sym rows ++ (if decide (symbol r = sym) then [r] else []).
Proof.
  unfold rows_of. by rewrite filter_app.
Qed.

Lemma tally_snoc {A} (l : list A) x :
  tally (l ++ [x]) = Some (default 0 (tally l) + 1).
Proof.
  unfold tally. destruct l as [|y l]; [done|].
  simpl. f_equal. rewrite length_app. simpl. lia.
Qed.

Lemma lookup_incr d k sym :
  incr d k !! sym = if decide (k = sym) then Some (get_int d sym + 1) else d !! sym.
Proof.
  unfold incr. rewrite lookup_insert. by case_decide; subst.
Qed.

Lemma cnt_aggregate rows sym :
  cnt (aggregate rows) !! sym = tally (rows_of sym rows).
Proof.
  induction rows as [|r rows IH] using rev_ind; [done|].
  rewrite aggregate_snoc, rows_of_snoc. simpl. rewrite lookup_incr.
  case_decide; [|by rewrite app_nil_r].
  rewrite tally_snoc. unfold get_int. by rewrite IH.
Qed.

Lemma hits_aggregate rows sym :
  hits (aggregate rows) !! sym = tally (filter (fun r => is_hit r = true) (rows_of sym rows)).
Proof.
  induction rows as [|r rows IH] using rev_ind; [done|].
  rewrite aggregate_snoc, rows_of_snoc, filter_app. simpl.
  fold (is_hit r). destruct (is_hit r) eqn:Hr.
  - rewrite lookup_incr. case_decide; [|by rewrite app_nil_r].
    rewrite filter_cons, filter_nil, decide_True by done.
    rewrite tally_snoc. unfold get_int. by rewrite IH.
  - rewrite IH. case_decide; [|by rewrite app_nil_r].
    rewrite filter_cons, filter_nil, decide_False by congruence.
    by rewrite app_nil_r.
Qed.

Lemma miss_aggregate rows sym :
  miss (aggregate rows) !! sym = tally (filter (fun r => is_hit r = false) (rows_of sym rows)).
Proof.
  induction rows as [|r rows IH] using rev_ind; [done|].
  rewrite aggregate_snoc, rows_of_snoc, filter_app. simpl.
  fold (is_hit r). destruct (is_hit r) eqn:Hr.
  - rewrite IH. case_decide; [|by rewrite app_nil_r].
    rewrite filter_cons, filter_nil, decide_False by congruence.
    by rewrite app_nil_r.
  - rewrite lookup_incr. case_decide; [|by rewrite app_nil_r].
    rewrite filter_cons, filter_nil, decide_True by done.
    rewrite tally_snoc. unfold get_int. by rewrite IH.
Qed.

Lemma pnls_of_snoc sym rows r :
  pnls_of sym (rows ++ [r]) =
  pnls_of sym rows ++ (if decide (symbol r = sym) then [pnl_usd r] else []).
Proof.
  unfold pnls_of. rewrite rows_of_snoc, map_app. by case_decide.
Qed.

Lemma running_sum_snoc l p :
  running_sum (l ++ [p]) = Some (Float64.add (default Float64.zero (running_sum l)) p).
Proof.
  destruct l as [|q l]; [done|].
  unfold running_sum. rewrite <- app_comm_cons, app_comm_cons.
  by rewrite fold_left_app.
Qed.

Lemma sum_p_aggregate rows sym :
  sum_p (aggregate rows) !! sym = running_sum (pnls_of sym rows).
Proof.
  induction rows as [|r rows IH] using rev_ind; [done|].
  rewrite aggregate_snoc, pnls_of_snoc. unfold agg_step. cbn [sum_p].
  rewrite lookup_insert.
  case_decide as Hsym; [|by rewrite app_nil_r].
  subst sym. unfold get_float. by rewrite IH, running_sum_snoc.
Qed.

Lemma max_p_aggregate rows sym :
  max_p (aggregate rows) !! sym = running_max (pnls_of sym rows).
Proof.
  induction rows as [|r rows IH] using rev_ind; [done|].
  rewrite aggregate_snoc, pnls_of_snoc. unfold running_max in *. simpl.
  case_decide as Hsym.
  - subst sym. rewrite fold_left_app. simpl. rewrite <- IH.
    destruct (max_p (aggregate rows) !! symbol r) as [m|] eqn:Hm.
    + destruct (Float64.ltb m (pnl_usd r)); [by rewrite lookup_insert_eq|done].
    + by rewrite lookup_insert_eq.
  - rewrite app_nil_r, <- IH.
    destruct (max_p (aggregate rows) !! symbol r) as [m|] eqn:Hm.
    + destruct (Float64.ltb m (pnl_usd r)); [by rewrite lookup_insert_ne|done].
    + by rewrite lookup_insert_ne.
Qed.

Lemma min_p_aggregate rows sym :
  min_p (aggregate rows) !! sym = running_min (pnls_of sym rows).
Proof.
  induction rows as [|r rows IH] using rev_ind; [done|].
  rewrite aggregate_snoc, pnls_of_snoc. unfold running_min in *. simpl.
  case_decide as Hsym.
  - subst sym. rewrite fold_left_app. simpl. rewrite <- IH.
    destruct (min_p (aggregate rows) !! symbol r) as [m|] eqn:Hm.
    + destruct (Float64.ltb (pnl_usd r) m); [by rewrite lookup_insert_eq|done].
    + by rewrite lookup_insert_eq.
  - rewrite app_nil_r, <- IH.
    destruct (min_p (aggregate rows) !! symbol r) as [m|] eqn:Hm.
    + destruct (Float64.ltb (pnl_usd r) m); [by rewrite lookup_insert_ne|done].
    + by rewrite lookup_insert_ne.
Qed.

(** ** The running extrema are the extrema *)

Lemma running_max_snoc l p :
  running_max (l ++ [p]) =
  Some match running_max l with
       | None => p
       | Some m => if Float64.ltb m p then p else m
       end.
Proof.
  unfold running_max. rewrite fold_left_app. simpl.
  by destruct (fold_left _ l None).
Qed.

Lemma running_min_snoc l p :
  running_min (l ++ [p]) =
  Some match running_min l with
       | None => p
       | Some m => if Float64.ltb p m then p else m
       end.
Proof.
  unfold running_min. rewrite fold_left_app. simpl.
  by destruct (fold_left _ l None).
Qed.

Lemma running_max_greatest l :
  Forall (fun p => Float64.is_nan p = false) l ->
  match running_max l with
  | None => l = []
  | Some m => m ∈ l /\ Forall (fun p => Float64.leb p m = true) l
  end.
Proof.
  induction l as [|p l IH] using rev_ind; intros Hl; [done|].
  apply Forall_app in Hl as [Hl Hp]. rewrite Forall_singleton in Hp.
  specialize (IH Hl). rewrite running_max_snoc.
  destruct (running_max l) as [m|].
  - destruct IH as [Hm Hle].
    assert (Hnan : Float64.is_nan m = false).
    { rewrite Forall_forall in Hl. by apply Hl. }
    destruct (Float64.ltb m p) eqn:Hlt.
    + split; [set_solver|]. apply Forall_app. split.
      * eapply Forall_impl; [exact Hle|]. intros q Hq. simpl in Hq.
        eauto using leb_trans, ltb_leb.
      * apply Forall_singleton. by apply leb_refl.
    + split; [set_solver|]. apply Forall_app. split; [done|].
      apply Forall_singleton. by apply not_ltb_leb.
  - subst l. split; [set_solver|]. apply Forall_singleton. by apply leb_refl.
Qed.

Lemma running_min_least l :
  Forall (fun p => Float64.is_nan p = false) l ->
  match running_min l with
  | None => l = []
  | Some m => m ∈ l /\ Forall (fun p => Float64.leb m p = true) l
  end.
Proof.
  induction l as [|p l IH] using rev_ind; intros Hl; [done|].
  apply Forall_app in Hl as [Hl Hp]. rewrite Forall_singleton in Hp.
  specialize (IH Hl). rewrite running_min_snoc.
  destruct (running_min l) as [m|].
  - destruct IH as [Hm Hle].
    assert (Hnan : Float64.is_nan m = false).
    { rewrite Forall_forall in Hl. by apply Hl. }
    destruct (Float64.ltb p m) eqn:Hlt.
    + split; [set_solver|]. apply Forall_app. split.
      * eapply Forall_impl; [exact Hle|]. intros q Hq. simpl in Hq.
        eauto using leb_trans, ltb_leb.
      * apply Forall_singleton. by apply leb_refl.
    + split; [set_solver|]. apply Forall_app. split; [done|].
      apply Forall_singleton. by apply not_ltb_leb.
  - subst l. split; [set_solver|]. apply Forall_singleton. by apply leb_refl.
Qed.

Lemma running_max_Permutation l l' :
  l ≡ₚ l' -> Forall (fun p => Float64.is_nan p = false) l ->
  same_number (running_max l) (running_max l').
Proof.
  intros Hperm Hl. assert (Hl' : Forall (fun p => Float64.is_nan p = false) l')
    by by rewrite <- Hperm.
  pose proof (running_max_greatest l Hl) as H.
  pose proof (running_max_greatest l' Hl') as H'.
  destruct (running_max l) as [m|], (running_max l') as [m'|]; simpl.
  - destruct H as [Hm Hle], H' as [Hm' Hle'].
    rewrite Forall_forall in Hle, Hle'.
    apply leb_antisym_eqb; [apply Hle'; by rewrite <- Hperm|apply Hle; by rewrite Hperm].
  - subst l'. apply Permutation_nil_r in Hperm. subst l. by destruct H as [?%elem_of_nil _].
  - subst l. symmetry in Hperm. apply Permutation_nil_r in Hperm. subst l'.
    by destruct H' as [?%elem_of_nil _].
  - done.
Qed.

Lemma running_min_Permutation l l' :
  l ≡ₚ l' -> Forall (fun p => Float64.is_nan p = false) l ->
  same_number (running_min l) (running_min l').
Proof.
  intros Hperm Hl. assert (Hl' : Forall (fun p => Float64.is_nan p = false) l')
    by by rewrite <- Hperm.
  pose proof (running_min_least l Hl) as H.
  pose proof (running_min_least l' Hl') as H'.
  destruct (running_min l) as [m|], (running_min l') as [m'|]; simpl.
  - destruct H as [Hm Hle], H' as [Hm' Hle'].
    rewrite Forall_forall in Hle, Hle'.
    apply leb_antisym_eqb; [apply Hle; by rewrite Hperm|apply Hle'; by rewrite <- Hperm].
  - subst l'. apply Permutation_nil_r in Hperm. subst l. by destruct H as [?%elem_of_nil _].
  - subst l. symmetry in Hperm. apply Permutation_nil_r in Hperm. subst l'.
    by destruct H' as [?%elem_of_nil _].
  - done.
Qed.

Lemma rows_of_Permutation sym rows rows' :
  rows ≡ₚ rows' -> rows_of sym rows ≡ₚ rows_of sym rows'.
Proof. intros H. unfold rows_of. by rewrite H. Qed.

Lemma pnls_of_Permutation sym rows rows' :
  rows ≡ₚ rows' -> pnls_of sym rows ≡ₚ pnls_of sym rows'.
Proof.
  intros H. unfold pnls_of. apply Permutation_map. by apply rows_of_Permutation.
Qed.

Lemma tally_Permutation {A} (l l' : list A) : l ≡ₚ l' -> tally l = tally l'.
Proof.
  intros H. unfold tally. destruct l, l'; try done.
  - by apply Permutation_nil_l in H.
  - by apply Permutation_nil_r in H.
  - by rewrite (Permutation_length H).
Qed.

Lemma pnls_of_not_nan sym rows :
  Forall (fun r => Float64.is_nan (pnl_usd r) = false) rows ->
  Forall (fun p => Float64.is_nan p = false) (pnls_of sym rows).
Proof.
  intros H. unfold pnls_of, rows_of. apply Forall_map.
  rewrite Forall_forall in *. intros r [_ Hr]%list_elem_of_filter. by apply H.
Qed.

(** ** The keys of the summary *)

Lemma tally_is_Some {A} (l : list A) : is_Some (tally l) <-> l <> [].
Proof. destruct l; simpl; split; try done; by intros [? [=]]. Qed.

Lemma elem_of_dom_cnt rows sym :
  sym ∈ dom (cnt (aggregate rows)) <-> exists r, r ∈ rows /\ symbol r = sym.
Proof.
  rewrite elem_of_dom, cnt_aggregate, tally_is_Some. unfold rows_of. split.
  - intros Hne. destruct (filter _ rows) as [|r l] eqn:Hf; [done|].
    assert (Hr : r ∈ filter (fun r => symbol r = sym) rows) by (rewrite Hf; set_solver).
    apply list_elem_of_filter in Hr as [? ?]. eauto.
  - intros (r & Hr & Hsym) Hnil.
    assert (Hin : r ∈ filter (fun r => symbol r = sym) rows)
      by by apply list_elem_of_filter.
    rewrite Hnil in Hin. by apply elem_of_nil in Hin.
Qed.

Lemma sorted_keys_Permutation a : sorted_keys a ≡ₚ elements (dom (cnt a)).
Proof. apply merge_sort_Permutation. Qed.

Lemma elem_of_sorted_keys a sym : sym ∈ sorted_keys a <-> sym ∈ dom (cnt a).
Proof. by rewrite sorted_keys_Permutation, elem_of_elements. Qed.

Lemma NoDup_sorted_keys a : NoDup (sorted_keys a).
Proof. rewrite sorted_keys_Permutation. apply NoDup_elements. Qed.

Lemma StronglySorted_sorted_keys a : StronglySorted String.le (sorted_keys a).
Proof. apply (StronglySorted_merge_sort _). Qed.

(** In a list sorted by [String.le] without duplicates, what comes earlier
    is strictly smaller. *)
Lemma sorted_strict (l : list string) i j s t :
  StronglySorted String.le l -> NoDup l ->
  l !! i = Some s -> l !! j = Some t -> (i < j)%nat -> String.ltb s t = true.
Proof.
  intros Hsorted. revert i j. induction Hsorted as [|x l Hl IH Hx];
    intros i j Hnd Hi Hj Hij; [done|].
  apply NoDup_cons in Hnd as [Hx_notin Hnd].
  destruct j as [|j]; [lia|]. simpl in Hj. destruct i as [|i]; simpl in Hi.
  - simplify_eq. assert (Ht : t ∈ l) by by eapply list_elem_of_lookup_2.
    rewrite Forall_forall in Hx. specialize (Hx t Ht).
    unfold String.le, String.leb in Hx. unfold String.ltb.
    destruct (String.compare s t) eqn:Hc; try done.
    apply String.compare_eq_iff in Hc. by subst.
  - apply (IH i j); auto. lia.
Qed.

(** ** The steps of the run *)

Section Run.
Context (d : nat) (render : list cell -> string).

Lemma writerow_file path row w c :
  fs w !! path = Some (File c) ->
  writerow render path row w =
  (Ok tt, {| fs := <[path := File (c +:+ render row)]> (fs w); stdout := stdout w |}).
Proof. intros H. unfold writerow. by rewrite H. Qed.

Lemma writerows_file path rows : forall w c,
  fs w !! path = Some (File c) ->
  writerows render path rows w =
  (Ok tt, {| fs := <[path := File (written render c rows)]> (fs w); stdout := stdout w |}).
Proof.
  induction rows as [|row rows IH]; intros w c H; simpl.
  - unfold io_ret. destruct w as [f o]. simpl in *. by rewrite insert_id.
  - unfold io_bind. rewrite (writerow_file _ _ _ c H).
    rewrite (IH _ (c +:+ render row)); simpl; [|by rewrite lookup_insert_eq].
    by rewrite insert_insert_eq.
Qed.

Lemma write_summary_file path a syms : forall w c,
  fs w !! path = Some (File c) ->
  match summary_rows a syms with
  | Ok srows =>
      write_summary render path a syms w =
      (Ok tt, {| fs := <[path := File (written render c srows)]> (fs w);
                 stdout := stdout w |})
  | Raise e => exists w', write_summary render path a syms w = (Raise e, w')
  end.
Proof.
  induction syms as [|sym syms IH]; intros w c H; simpl.
  - unfold io_ret. destruct w as [f o]. simpl in *. by rewrite insert_id.
  - unfold io_bind, io_lift. destruct (summary_row a sym) as [row|e]; simpl; [|by eexists].
    rewrite (writerow_file _ _ _ c H).
    match goal with |- context [write_summary _ _ _ _ ?w1] =>
      specialize (IH w1 (c +:+ render row)) end.
    simpl in IH. rewrite lookup_insert_eq in IH. specialize (IH eq_refl).
    destruct (summary_rows a syms) as [srows|e]; simpl.
    + rewrite IH. by rewrite insert_insert_eq.
    + destruct IH as [w' ->]. by eexists.
Qed.

Lemma paths_distinct :
  per_trade_path <> summary_path /\ out_dir <> log_file /\
  out_dir <> per_trade_path /\ out_dir <> summary_path /\
  log_file <> per_trade_path /\ log_file <> summary_path.
Proof. repeat split; intros H; by vm_compute in H. Qed.

(** What a run that returns has done. *)
Lemma main_returns w w' :
  main d render w = (Ok tt, w') ->
  let rows := run_rows d w in
  let a := aggregate rows in
  exists content srows,
    fs w !! log_file = Some (File content) /\
    parse_log d (log_lines w) [] = Ok rows /\
    summary_rows a (sorted_keys a) = Ok srows /\
    fs w' !! per_trade_path =
      Some (File (written render "" (per_trade_header :: map trade_cells rows))) /\
    fs w' !! summary_path = Some (File (written render "" (summary_header :: srows))) /\
    stdout w' = stdout w ++ [per_trade_path; summary_path].
Proof.
  destruct paths_distinct as (Hps & Hol & Hop & Hos & Hlp & Hls).
  intros Hmain. unfold main, io_bind in Hmain.
  destruct (makedirs out_dir w) as [[[]|e] w1] eqn:Hmk; [|done].
  assert (Hw1 : fs w1 !! log_file = fs w !! log_file /\ stdout w1 = stdout w).
  { unfold makedirs in Hmk. destruct (fs w !! out_dir) as [[|?]|]; simplify_eq; auto.
    simpl. by rewrite lookup_insert_ne. }
  destruct Hw1 as [Hlog Hout1].
  unfold read_file in Hmain. rewrite Hlog in Hmain.
  destruct (fs w !! log_file) as [[|content]|] eqn:Hcontent; try done.
  unfold io_lift in Hmain.
  assert (Hlines : log_lines w = Text.readlines content)
    by (unfold log_lines; by rewrite Hcontent).
  unfold run_rows. rewrite Hlines.
  destruct (parse_log d (Text.readlines content) []) as [rows|e] eqn:Hparse; [|done].
  simpl. exists content.
  unfold open_write at 1 in Hmain.
  destruct (fs w1 !! per_trade_path) as [[|?]|] eqn:Hpt; [done| |].
  all: rewrite (writerow_file _ _ _ "") in Hmain by (simpl; by rewrite lookup_insert_eq).
  all: rewrite (writerows_file _ _ _ ("" +:+ render per_trade_header)) in Hmain
         by (simpl; by rewrite lookup_insert_eq).
  all: simpl in Hmain; rewrite !insert_insert_eq in Hmain.
  all: unfold open_write in Hmain; simpl in Hmain.
  all: rewrite lookup_insert_ne in Hmain by done.
  all: destruct (fs w1 !! summary_path) as [[|?]|] eqn:Hsm; [done| |].
  all: rewrite (writerow_file _ _ _ "") in Hmain by (simpl; by rewrite lookup_insert_eq).
  all: simpl in Hmain; rewrite !insert_insert_eq in Hmain.
  all: match type of Hmain with context [write_summary _ _ ?a ?syms ?w2] =>
         pose proof (write_summary_file summary_path a syms w2
                       ("" +:+ render summary_header)) as Hws end.
  all: simpl in Hws; rewrite lookup_insert_eq in Hws; specialize (Hws eq_refl).
  all: destruct (summary_rows _ _) as [srows|e]; [|destruct Hws as [w2 Hws]; by rewrite Hws in Hmain].
  all: rewrite Hws in Hmain; simpl in Hmain; unfold print in Hmain; simpl in Hmain.
  all: injection Hmain as <-; simpl.
  all: exists srows; rewrite Hout1, <- app_assoc.
  all: rewrite insert_insert_eq, lookup_insert_eq, lookup_insert_ne, lookup_insert_eq by done.
  all: by repeat split.
Qed.

End Run.

(** ** The reading loop *)

Section Reading.
Context (d : nat).

Lemma matching_parse_line line :
  matching line = true <-> parse_line d line <> None.
Proof.
  unfold matching, parse_line.
  by destruct (Regex.search line_re (list_ascii_of_string line)).
Qed.

Lemma parse_log_rows lines : forall acc rows,
  parse_log d lines acc = Ok rows ->
  exists new, rows = acc ++ new /\
    Forall2 (fun line r => parse_line d line = Some (Ok r))
            (filter (fun l => matching l = true) lines) new.
Proof.
  induction lines as [|line lines IH]; intros acc rows H; simpl in H.
  - exists []. simplify_eq. by rewrite app_nil_r.
  - rewrite filter_cons. pose proof (matching_parse_line line) as Hm.
    destruct (parse_line d line) as [[r|e]|] eqn:Hline; [|done|].
    + apply IH in H as (new & -> & Hnew). exists (r :: new).
      rewrite <- app_assoc. split; [done|].
      rewrite decide_True by (apply Hm; done). by constructor.
    + apply IH in H as (new & -> & Hnew). exists new. split; [done|].
      rewrite decide_False; [done|]. intros Ht. by apply Hm in Ht.
Qed.

(** The fields of a row come from the captures of its line. *)
Lemma parse_line_row line r :
  parse_line d line = Some (Ok r) ->
  exists m ts tag sym pnl cap idx total,
    Regex.search line_re (list_ascii_of_string line) = Some m /\
    Regex.groups 7 m =
      [Some ts; Some tag; Some sym; Some pnl; Some cap; Some idx; Some total] /\
    timestamp r = string_of_list_ascii ts /\
    symbol r = string_of_list_ascii (Text.strip sym) /\
    py_float pnl = Ok (pnl_usd r) /\ py_float cap = Ok (capital_usd r) /\
    py_int d idx = Ok (trade_index r) /\ py_int d total = Ok (total_trades r).
Proof.
  unfold parse_line.
  destruct (Regex.search line_re (list_ascii_of_string line)) as [m|] eqn:Hm; [|done].
  destruct (line_re_match_inv _ _ Hm)
    as (ts & junk & tag & sp & sym & sgn & pnl & cap & idx & total & rest & _ & _ & _
        & _ & _ & _ & _ & _ & _ & _ & _ & _ & _ & _ & _ & _ & _ & Hg).
  rewrite Hg. intros [= H].
  destruct (py_float (sgn ++ pnl)) as [p|] eqn:Hp; [|done].
  destruct (py_float cap) as [c|] eqn:Hc; [|done].
  destruct (py_int d idx) as [i|] eqn:Hi; [|done].
  destruct (py_int d total) as [t|] eqn:Ht; [|done].
  simpl in H. injection H as <-. simpl.
  exists m, ts, tag, sym, (sgn ++ pnl), cap, idx, total. by repeat split.
Qed.

Lemma parse_line_not_nan line r :
  parse_line d line = Some (Ok r) -> Float64.is_nan (pnl_usd r) = false.
Proof.
  intros (m & ts & tag & sym & pnl & cap & idx & total & _ & _ & _ & _ & Hp & _)%parse_line_row.
  by eapply py_float_not_nan.
Qed.

Lemma parse_log_not_nan lines rows :
  parse_log d lines [] = Ok rows ->
  Forall (fun r => Float64.is_nan (pnl_usd r) = false) rows.
Proof.
  intros (new & -> & Hnew)%parse_log_rows. simpl.
  induction Hnew; constructor; eauto using parse_line_not_nan.
Qed.

End Reading.

(** ** Lemmas shared by the claims and the further properties *)

Lemma parse_line_fields d line r :
  parse_line d line = Some (Ok r) ->
  exists m ts junk tag sp sym sgn pnl cap idx total rest,
    Regex.search line_re (list_ascii_of_string line) = Some m /\
    Regex.groups 7 m =
      [Some ts; Some tag; Some sym; Some (sgn ++ pnl); Some cap; Some idx; Some total] /\
    list_ascii_of_string line =
      ts ++ " "%char :: junk ++ tag ++ sp ++ sym
      ++ list_ascii_of_string " | PnL=$" ++ (sgn ++ pnl)
      ++ list_ascii_of_string " | Capital=$" ++ cap
      ++ list_ascii_of_string " | Trades: " ++ idx ++ "/"%char :: total ++ rest /\
    length ts = 19%nat /\
    (tag = list_ascii_of_string "HIT:" \/ tag = list_ascii_of_string "MISS:") /\
    Forall (fun c => c <> "|"%char) sym /\
    (sgn = [] \/ sgn = ["-"%char]) /\
    Forall (fun c => number_chars c = true) pnl /\
    Forall (fun c => number_chars c = true) cap /\
    timestamp r = string_of_list_ascii ts /\
    status r = (if Text.contains (list_ascii_of_string "HIT") tag then "HIT" else "MISS") /\
    symbol r = string_of_list_ascii (Text.strip sym) /\
    py_float (sgn ++ pnl) = Ok (pnl_usd r) /\ py_float cap = Ok (capital_usd r) /\
    py_int d idx = Ok (trade_index r) /\ py_int d total = Ok (total_trades r).
Proof.
  unfold parse_line.
  destruct (Regex.search line_re (list_ascii_of_string line)) as [m|] eqn:Hm; [|done].
  destruct (line_re_match_inv _ _ Hm)
    as (ts & junk & tag & sp & sym & sgn & pnl & cap & idx & total & rest & Hline & _
        & Hlen & Htag & _ & _ & Hsym & _ & Hsgn & Hpnl & _ & Hcap & _ & _ & _ & _ & _ & Hg).
  rewrite Hg. intros [= H].
  destruct (py_float (sgn ++ pnl)) as [p|] eqn:Hp; [|done].
  destruct (py_float cap) as [c|] eqn:Hc; [|done].
  destruct (py_int d idx) as [i|] eqn:Hi; [|done].
  destruct (py_int d total) as [t|] eqn:Ht; [|done].
  simpl in H. injection H as <-. cbn [timestamp status symbol pnl_usd capital_usd
    trade_index total_trades].
  exists m, ts, junk, tag, sp, sym, sgn, pnl, cap, idx, total, rest.
  by repeat split.
Qed.

Lemma parse_line_raises d line e :
  parse_line d line = Some (Raise e) -> e = ValueError.
Proof.
  unfold parse_line.
  destruct (Regex.search line_re (list_ascii_of_string line)) as [m|] eqn:Hm; [|done].
  destruct (line_re_match_inv _ _ Hm)
    as (ts & junk & tag & sp & sym & sgn & pnl & cap & idx & total & rest & _ & _ & _
        & _ & _ & _ & _ & _ & Hsgn & Hpnl & _ & Hcap & _ & _ & _ & _ & _ & Hg).
  rewrite Hg.
  pose proof (py_float_token sgn pnl Hsgn Hpnl) as Hfp.
  pose proof (py_float_token [] cap (or_introl eq_refl) Hcap) as Hfc. simpl in Hfc.
  destruct (py_float (sgn ++ pnl)) as [p|e1] eqn:Hp.
  2:{ intros [= <-]. destruct (decimal_ok pnl); [by destruct Hfp|by injection Hfp]. }
  destruct (py_float cap) as [c|e2] eqn:Hc.
  2:{ intros [= <-]. destruct (decimal_ok cap); [by destruct Hfc|by injection Hfc]. }
  destruct (py_int_cases d idx) as [[i Hi]|Hi]; rewrite Hi; [|by intros [= <-]].
  destruct (py_int_cases d total) as [[t Ht]|Ht]; rewrite Ht; [done|by intros [= <-]].
Qed.

Lemma parse_log_raises d lines : forall acc line e,
  line ∈ lines -> parse_line d line = Some (Raise e) ->
  parse_log d lines acc = Raise ValueError.
Proof.
  induction lines as [|l lines IH]; intros acc line e Hin Hline; [by apply elem_of_nil in Hin|].
  simpl. destruct (parse_line d l) as [[r|e']|] eqn:Hl.
  - apply elem_of_cons in Hin as [->|Hin]; [congruence|]. by eapply IH.
  - by rewrite (parse_line_raises d l e' Hl).
  - apply elem_of_cons in Hin as [->|Hin]; [congruence|]. by eapply IH.
Qed.

Lemma translate_newlines_no_cr_bounded n : forall s,
  (length s <= n)%nat -> Forall (fun c => c <> Text.cr) (Text.translate_newlines s).
Proof.
  induction n as [|n IH]; intros s Hn.
  - destruct s; [constructor|simpl in Hn; lia].
  - destruct s as [|c s]; [constructor|]. simpl in Hn. simpl.
    destruct (Ascii.eqb_spec c Text.cr) as [->|Hc].
    + destruct s as [|c' s]; [by repeat constructor|]. simpl in Hn.
      destruct (Ascii.eqb c' Text.nl); (constructor; [done|]); apply IH; simpl; lia.
    + constructor; [done|]. apply IH. lia.
Qed.

Lemma translate_newlines_no_cr s :
  Forall (fun c => c <> Text.cr) (Text.translate_newlines s).
Proof. by apply (translate_newlines_no_cr_bounded (length s)). Qed.

Lemma translate_newlines_id s :
  Forall (fun c => c <> Text.cr) s -> Text.translate_newlines s = s.
Proof.
  induction 1 as [|c s Hc _ IH]; [done|]. simpl.
  destruct (Ascii.eqb_spec c Text.cr); [done|]. by rewrite IH.
Qed.

Lemma split_lines_spec s : forall cur,
  Text.nl ∉ cur ->
  concat (Text.split_lines cur s) = rev cur ++ s /\
  Forall (fun line => exists body,
            (Text.nl ∉ body) /\
            (line = body ++ [Text.nl] \/ (line = body /\ body <> [])))
         (Text.split_lines cur s).
Proof.
  induction s as [|c s IH]; intros cur Hcur; simpl.
  - destruct cur as [|x cur]; [by split|]. split; [done|].
    repeat constructor. exists (rev (x :: cur)). split.
    + intros Hin. apply Hcur. by apply list_elem_of_In, in_rev, list_elem_of_In.
    + right. split; [done|]. simpl. by destruct (rev cur).
  - destruct (Ascii.eqb_spec c Text.nl) as [->|Hc].
    + destruct (IH []) as [Hcat Hall]; [by apply not_elem_of_nil|].
      split.
      * simpl. rewrite Hcat. simpl. by rewrite <- app_assoc.
      * constructor; [|done]. exists (rev cur). split.
        -- intros Hin. apply Hcur. by apply list_elem_of_In, in_rev, list_elem_of_In.
        -- by left.
    + destruct (IH (c :: cur)) as [Hcat Hall].
      { intros [?|?]%elem_of_cons; [congruence|done]. }
      split; [|done]. rewrite Hcat. simpl. by rewrite <- app_assoc.
Qed.






(** The two relations leave no choice: a file has one text and a text one
    list of lines. *)
Lemma universal_newlines_functional s t1 t2 :
  universal_newlines s t1 -> universal_newlines s t2 -> t1 = t2.
Proof.
  intros H1. revert t2.
  induction H1 as [|s t H1 IH|s t Hs H1 IH|c s t Hc H1 IH]; intros t2 H2;
    inversion H2; subst; try done; try (f_equal; by apply IH).
Qed.

Lemma first_separator_unique (c : ascii) a : forall a' b b',
  c ∉ a -> c ∉ a' -> a ++ c :: b = a' ++ c :: b' -> a = a' /\ b = b'.
Proof.
  induction a as [|x a IH]; intros [|x' a'] b b' Ha Ha' H; simpl in H.
  - by injection H.
  - injection H as <- _. destruct Ha'. by left.
  - injection H as -> _. destruct Ha. by left.
  - injection H as <- H. apply IH in H as [-> ->]; [done| |].
    + intros ?. apply Ha. by right.
    + intros ?. apply Ha'. by right.
Qed.

Lemma cut_into_lines_functional text l1 l2 :
  cut_into_lines text l1 -> cut_into_lines text l2 -> l1 = l2.
Proof.
  intros H1. revert l2.
  induction H1 as [|body Hne Hnl|body text lines Hnl H1 IH]; intros l2 H2.
  - inversion H2 as [|body' Hne' Hnl'|body' text' lines' Hnl' H2' Heq]; subst; try done.
    by destruct body'.
  - inversion H2 as [|body' Hne' Hnl'|body' text' lines' Hnl' H2' Heq]; subst; try done.
    destruct Hnl. apply elem_of_app. right. by left.
  - inversion H2 as [Heq|body' Hne' Hnl'|body' text' lines' Hnl' H2' Heq]; subst.
    + by destruct body.
    + destruct Hnl'. apply elem_of_app. right. by left.
    + apply first_separator_unique in Heq as [-> ->]; [|done..].
      f_equal. by apply IH.
Qed.


(** Rounding to two decimals, against its description. *)
Lemma div_half_even_nearest n q :
  0 <= n -> 0 < q ->
  nearest_integer n q (Float64.div_half_even n q) /\ 0 <= Float64.div_half_even n q.
Proof.
  intros Hn Hq. unfold Float64.div_half_even, nearest_integer.
  pose proof (Z_div_mod n q ltac:(lia)) as H.
  destruct (Z.div_eucl n q) as [a r]. destruct H as [Hnq Hr].
  assert (Ha : 0 <= a) by nia.
  assert (Hlo : n - a * q = r) by lia.
  assert (Hhi : n - (a + 1) * q = r - q) by lia.
  destruct (Z.compare_spec (2 * r) q) as [He|Hl|Hg].
  - destruct (Z.even a) eqn:Hev.
    + rewrite Hlo. split; [split; [lia|done]|lia].
    + rewrite Hhi. split; [split; [lia|]|lia].
      intros _. rewrite Z.add_1_r, Z.even_succ, <- Z.negb_even. by rewrite Hev.
  - rewrite Hlo. split; [split; lia|lia].
  - rewrite Hhi. split; [split; lia|lia].
Qed.

Lemma digits_value_app l1 : forall acc l2,
  digits_value acc (l1 ++ l2) =
  match digits_value acc l1 with
  | Some v => digits_value v l2
  | None => None
  end.
Proof.
  induction l1 as [|c l1 IH]; intros acc l2; simpl; [done|].
  destruct (Text.digit_value c); [apply IH|done].
Qed.

Lemma digit_value_char d :
  0 <= d < 10 -> Text.digit_value (ascii_of_N (Z.to_N (48 + d))) = Some d.
Proof.
  intros H.
  assert (d = 0 \/ d = 1 \/ d = 2 \/ d = 3 \/ d = 4 \/ d = 5 \/ d = 6 \/ d = 7
          \/ d = 8 \/ d = 9) as Hd by lia.
  repeat (destruct Hd as [->|Hd]; [reflexivity|]). by subst.
Qed.

Lemma decimal_digits_exist k : 0 <= k -> exists l, digits_value 0 l = Some k.
Proof.
  intros Hk. generalize Hk. revert k Hk.
  apply (Z_lt_induction (fun k => 0 <= k -> exists l, digits_value 0 l = Some k)).
  intros k IH Hk. destruct (Z_lt_le_dec k 10) as [Hlt|Hge].
  - exists [ascii_of_N (Z.to_N (48 + k))]. simpl. by rewrite digit_value_char by lia.
  - destruct (IH (k / 10)) as [l Hl].
    { split; [apply Z.div_pos; lia|apply Z.div_lt; lia]. }
    { apply Z.div_pos; lia. }
    exists (l ++ [ascii_of_N (Z.to_N (48 + k mod 10))]).
    rewrite digits_value_app, Hl. simpl.
    rewrite digit_value_char by (apply Z.mod_pos_bound; lia).
    f_equal. pose proof (Z.div_mod k 10). lia.
Qed.

Lemma two_decimals_exist k :
  0 <= k ->
  exists ip fp, ip <> [] /\ length fp = 2%nat /\ digits_value 0 (ip ++ fp) = Some k.
Proof.
  intros [l Hl]%decimal_digits_exist.
  exists ("0"%char :: take (length l) ("0"%char :: "0"%char :: l)),
         (drop (length l) ("0"%char :: "0"%char :: l)).
  split; [done|]. split.
  - rewrite length_drop. simpl. lia.
  - rewrite <- app_comm_cons, take_drop. exact Hl.
Qed.

Lemma split_dot_digits ip fp :
  Forall (fun c => Text.isdigit c = true) ip ->
  split_dot (ip ++ "."%char :: fp) = (ip, Some fp).
Proof.
  induction 1 as [|c ip Hc _ IH]; simpl; [done|].
  destruct (Ascii.eqb_spec c "."%char) as [->|_]; [done|]. by rewrite IH.
Qed.

Lemma py_float_two_decimals (s : bool) (ip fp : list ascii) (k : Z) :
  ip <> [] -> digits_value 0 (ip ++ fp) = Some k ->
  py_float ((if s then ["-"%char] else []) ++ ip ++ "."%char :: fp) =
  Ok match k with
     | Zpos n => Float64.of_ratio s n (Z.to_pos (10 ^ Z.of_nat (length fp)))
     | _ => S754_zero s
     end.
Proof.
  intros Hip Hk.
  pose proof (digits_value_only_digits _ _ _ Hk) as Hd.
  apply Forall_app in Hd as [Hdi Hdf].
  assert (Hbody : forall neg,
    (let '(ip', fp') := split_dot (ip ++ "."%char :: fp) in
     let fp' := default [] fp' in
     match ip' ++ fp' with
     | [] => Raise ValueError
     | ds =>
         match digits_value 0 ds with
         | Some (Zpos n) =>
             Ok (Float64.of_ratio neg n (Z.to_pos (10 ^ Z.of_nat (length fp'))))
         | Some _ => Ok (S754_zero neg)
         | None => Raise ValueError
         end
     end) =
    Ok match k with
       | Zpos n => Float64.of_ratio neg n (Z.to_pos (10 ^ Z.of_nat (length fp)))
       | _ => S754_zero neg
       end).
  { intros neg. rewrite split_dot_digits by done. change (default [] (Some fp)) with fp. cbv zeta.
    destruct (ip ++ fp) as [|c ds] eqn:Hds.
    - by destruct ip.
    - rewrite Hk. by destruct k. }
  destruct s.
  - unfold py_float. cbn [app]. change (Ascii.eqb "-" "-") with true. cbv iota beta.
    apply Hbody.
  - destruct ip as [|c ip]; [done|]. unfold py_float. cbn [app].
    apply Forall_cons in Hdi as [Hc _].
    assert (Ascii.eqb c "-"%char = false /\ Ascii.eqb c "+"%char = false) as [-> ->].
    { unfold Text.isdigit, Text.digit_value in Hc.
      split; apply Ascii.eqb_neq; intros ->; discriminate. }
    apply (Hbody false).
Qed.

Lemma round2_rounded v : rounded_to_cents v (Float64.round2 v).
Proof.
  destruct v as [s|s| |s m e]; try reflexivity.
  unfold rounded_to_cents, Float64.round2.
  set (k := match e with
            | Zneg p => Float64.div_half_even (100 * Z.pos m) (2 ^ Z.pos p)
            | _ => 100 * Z.pos m * 2 ^ e
            end).
  assert (Hk : nearest_integer (100 * Z.pos m * 2 ^ Z.max e 0) (2 ^ Z.max (- e) 0) k
               /\ 0 <= k).
  { subst k. destruct e as [|p|p].
    - change (Z.max 0 0) with 0. change (Z.max (- 0) 0) with 0.
      unfold nearest_integer. rewrite Z.pow_0_r. split; [split|]; lia.
    - replace (Z.max (Z.pos p) 0) with (Z.pos p) by lia.
      replace (Z.max (- Z.pos p) 0) with 0 by lia.
      assert (0 < 2 ^ Z.pos p) by (apply Z.pow_pos_nonneg; lia).
      unfold nearest_integer. rewrite Z.pow_0_r. split; [split|]; lia.
    - replace (Z.max (Z.neg p) 0) with 0 by lia.
      replace (Z.max (- Z.neg p) 0) with (Z.pos p) by lia.
      rewrite Z.pow_0_r, Z.mul_1_r.
      apply div_half_even_nearest; [lia|]. apply Z.pow_pos_nonneg; lia. }
  destruct Hk as [Hnear Hpos].
  destruct (two_decimals_exist k Hpos) as (ip & fp & Hip & Hfp & Hval).
  exists k, ip, fp. repeat (split; [done|]).
  rewrite (py_float_two_decimals s ip fp k Hip Hval), Hfp. done.
Qed.

(** A run whose reading loop raises ends there. *)
Lemma main_raises_while_reading d render w content e :
  fs w !! log_file = Some (File content) ->
  parse_log d (Text.readlines content) [] = Raise e ->
  exists w',
    main d render w =
      (Raise match fs w !! out_dir with
             | Some (File _) => FileExistsError
             | _ => e
             end, w') /\
    fs w' !! per_trade_path = fs w !! per_trade_path /\
    fs w' !! summary_path = fs w !! summary_path /\
    stdout w' = stdout w.
Proof.
  destruct paths_distinct as (Hps & Hol & Hop & Hos & Hlp & Hls).
  intros Hlog Hparse.
  unfold main, io_bind, makedirs, read_file, io_lift.
  destruct (fs w !! out_dir) as [[|c]|] eqn:Hd; simpl.
  - rewrite Hlog, Hparse. by eexists.
  - by eexists.
  - rewrite lookup_insert_ne, Hlog, Hparse by done. eexists. split; [done|].
    simpl. by rewrite !lookup_insert_ne by done.
Qed.

Lemma timestamp_shape_first c s :
  Text.isdigit c = false -> timestamp_shape (c :: s) = false.
Proof.
  intros Hc. do 19 (destruct s as [|? s]; [done|]). simpl. by rewrite Hc.
Qed.

Lemma per_trade_file_of_run d render w w' :
  main d render w = (Ok tt, w') ->
  fs w' !! per_trade_path =
    Some (File (written render "" (per_trade_header :: map trade_cells (run_rows d w)))) /\
  stdout w' = stdout w ++ [per_trade_path; summary_path].
Proof.
  intros (content & srows & _ & _ & _ & Hpt & _ & Hout)%main_returns. by split.
Qed.

(** * The claims *)

(** ** The line parser *)

(** C1 (as amended).  On every line that [line_re] matches, the seven
    groups are all captured; the trade-index and total-trades tokens are
    non-empty runs of digits and [int] converts them whenever their length
    is within the interpreter's digit limit (and raises [ValueError] when
    it is not); the PnL and Capital tokens are
    made of digits and dots (after an optional minus sign for PnL) and
    [float] converts such a token exactly when it has at least one digit
    and at most one dot, raising [ValueError] otherwise.  When the four
    tokens convert, the line yields the row made of the captured
    timestamp, the status of the marker, the trimmed symbol and the four
    converted numbers.  When one of them does not, the line raises
    [ValueError], and every run whose log holds the line ends with the
    exception before a table is opened or a path printed: the exception is
    that [ValueError], unless [os.makedirs] has raised [FileExistsError]
    at the start of the run. *)
Theorem numeric_tokens_convert (d : nat) (line : string) (m : Regex.captures) :
  Regex.search line_re (list_ascii_of_string line) = Some m ->
  exists ts tag sym pnl cap idx total,
    Regex.groups 7 m =
      [Some ts; Some tag; Some sym; Some pnl; Some cap; Some idx; Some total] /\
    Forall (fun c => Text.isdigit c = true) idx /\
    Forall (fun c => Text.isdigit c = true) total /\
    Forall (fun c => number_chars c = true) (unsigned_part pnl) /\
    Forall (fun c => number_chars c = true) cap /\
    (if within_limit d idx then exists z, py_int d idx = Ok z
     else py_int d idx = Raise ValueError) /\
    (if within_limit d total then exists z, py_int d total = Ok z
     else py_int d total = Raise ValueError) /\
    (if decimal_ok (unsigned_part pnl) then exists f, py_float pnl = Ok f
     else py_float pnl = Raise ValueError) /\
    (if decimal_ok cap then exists f, py_float cap = Ok f
     else py_float cap = Raise ValueError) /\
    ((exists r, parse_line d line = Some (Ok r)) \/
     parse_line d line = Some (Raise ValueError)) /\
    (if decimal_ok (unsigned_part pnl) && decimal_ok cap
        && within_limit d idx && within_limit d total
     then
       exists p c i t,
         py_float pnl = Ok p /\ py_float cap = Ok c /\
         py_int d idx = Ok i /\ py_int d total = Ok t /\
         parse_line d line =
           Some (Ok {| timestamp := string_of_list_ascii ts;
                       status := if Text.contains (list_ascii_of_string "HIT") tag
                                 then "HIT" else "MISS";
                       symbol := string_of_list_ascii (Text.strip sym);
                       pnl_usd := p; capital_usd := c;
                       trade_index := i; total_trades := t |})
     else
       parse_line d line = Some (Raise ValueError) /\
       forall (render : list cell -> string) (w : world) (content : string),
         fs w !! log_file = Some (File content) ->
         line ∈ Text.readlines content ->
         exists w',
           main d render w =
             (Raise match fs w !! out_dir with
                    | Some (File _) => FileExistsError
                    | _ => ValueError
                    end, w') /\
           fs w' !! per_trade_path = fs w !! per_trade_path /\
           fs w' !! summary_path = fs w !! summary_path /\
           stdout w' = stdout w).
Proof.
  intros Hm.
  destruct (line_re_match_inv _ _ Hm)
    as (ts & junk & tag & sp & sym & sgn & pnl & cap & idx & total & rest & _ & _ & _
        & _ & _ & _ & _ & _ & Hsgn & Hpnl & _ & Hcap & _ & Hidx & Hidx0 & Htot & Htot0 & Hg).
  exists ts, tag, sym, (sgn ++ pnl), cap, idx, total.
  rewrite (unsigned_part_token sgn pnl Hsgn Hpnl).
  pose proof (py_float_token sgn pnl Hsgn Hpnl) as Hfp.
  pose proof (py_float_token [] cap (or_introl eq_refl) Hcap) as Hfc.
  pose proof (py_int_digits d idx Hidx Hidx0) as Hii.
  pose proof (py_int_digits d total Htot Htot0) as Hit.
  simpl in Hfc.
  do 9 (split; [done|]).
  assert (Hline : parse_line d line =
    Some (let? p := py_float (sgn ++ pnl) in
          let? c := py_float cap in
          let? i := py_int d idx in
          let? t := py_int d total in
          Ok {| timestamp := string_of_list_ascii ts;
                status := if Text.contains (list_ascii_of_string "HIT") tag
                          then "HIT" else "MISS";
                symbol := string_of_list_ascii (Text.strip sym);
                pnl_usd := p; capital_usd := c;
                trade_index := i; total_trades := t |})).
  { unfold parse_line. by rewrite Hm, Hg. }
  assert (Hraise : parse_line d line = Some (Raise ValueError) ->
    forall (render : list cell -> string) (w : world) (content : string),
      fs w !! log_file = Some (File content) ->
      line ∈ Text.readlines content ->
      exists w',
        main d render w =
          (Raise match fs w !! out_dir with
                 | Some (File _) => FileExistsError
                 | _ => ValueError
                 end, w') /\
        fs w' !! per_trade_path = fs w !! per_trade_path /\
        fs w' !! summary_path = fs w !! summary_path /\
        stdout w' = stdout w).
  { intros Hl render w content Hlog Hin.
    apply (main_raises_while_reading d render w content ValueError Hlog).
    by apply (parse_log_raises d _ [] line ValueError). }
  assert (Hcases :
    if decimal_ok pnl && decimal_ok cap && within_limit d idx && within_limit d total
    then
      exists p c i t,
        py_float (sgn ++ pnl) = Ok p /\ py_float cap = Ok c /\
        py_int d idx = Ok i /\ py_int d total = Ok t /\
        parse_line d line =
          Some (Ok {| timestamp := string_of_list_ascii ts;
                      status := if Text.contains (list_ascii_of_string "HIT") tag
                                then "HIT" else "MISS";
                      symbol := string_of_list_ascii (Text.strip sym);
                      pnl_usd := p; capital_usd := c;
                      trade_index := i; total_trades := t |})
    else parse_line d line = Some (Raise ValueError)).
  { rewrite Hline.
    destruct (decimal_ok pnl); [destruct Hfp as [p ->]|by rewrite Hfp].
    destruct (decimal_ok cap); [destruct Hfc as [c ->]|by rewrite Hfc].
    destruct (within_limit d idx); [destruct Hii as [i ->]|by rewrite Hii].
    destruct (within_limit d total); [destruct Hit as [t ->]|by rewrite Hit].
    by exists p, c, i, t. }
  split.
  - destruct (decimal_ok pnl && decimal_ok cap && within_limit d idx
              && within_limit d total).
    + destruct Hcases as (p & c & i & t & _ & _ & _ & _ & ->). left. by eexists.
    + by right.
  - destruct (decimal_ok pnl && decimal_ok cap && within_limit d idx
              && within_limit d total); [done|].
    split; [done|]. by apply Hraise.
Qed.

Lemma numeric_tokens_convert_witness :
  (exists m, Regex.search line_re (list_ascii_of_string line_hit) = Some m /\
     exists p c i t,
       py_float (list_ascii_of_string "12.50") = Ok p /\
       py_float (list_ascii_of_string "10012.50") = Ok c /\
       py_int 4300 (list_ascii_of_string "1") = Ok i /\
       py_int 4300 (list_ascii_of_string "10") = Ok t /\
       parse_line 4300 line_hit =
         Some (Ok {| timestamp := "2024/01/01 09:00:00"; status := "HIT";
                     symbol := "AAPL"; pnl_usd := p; capital_usd := c;
                     trade_index := i; total_trades := t |})) /\
  (let w := world_of [line_hit; line_two_dots; line_miss] in
   exists w',
     main 4300 show_row w = (Raise ValueError, w') /\
     fs w' !! per_trade_path = fs w !! per_trade_path /\
     fs w' !! summary_path = fs w !! summary_path /\
     stdout w' = stdout w).
Proof.
  split.
  - destruct (Regex.search line_re (list_ascii_of_string line_hit)) as [m|] eqn:Hm;
      [|by vm_compute in Hm].
    exists m. split; [done|].
    destruct (numeric_tokens_convert 4300 line_hit m Hm)
      as (ts & tag & sym & pnl & cap & idx & total & Hg
          & _ & _ & _ & _ & _ & _ & _ & _ & _ & Hrow).
    vm_compute in Hm. injection Hm as <-. vm_compute in Hg.
    injection Hg as <- <- <- <- <- <- <-.
    exact Hrow.
  - intros w.
    destruct (Regex.search line_re
                (list_ascii_of_string (line_two_dots +:+ String Text.nl "")))
      as [m|] eqn:Hm; [|by vm_compute in Hm].
    destruct (numeric_tokens_convert 4300 _ m Hm)
      as (ts & tag & sym & pnl & cap & idx & total & Hg
          & _ & _ & _ & _ & _ & _ & _ & _ & _ & Hrow).
    vm_compute in Hm. injection Hm as <-. vm_compute in Hg.
    injection Hg as <- <- <- <- <- <- <-.
    destruct Hrow as [_ Hrun].
    apply (Hrun show_row w (log_of [line_hit; line_two_dots; line_miss])).
    + vm_compute. reflexivity.
    + vm_compute. apply elem_of_cons. right. apply elem_of_cons. by left.
Defined.

(** C1 (as stated) fails: a line with the PnL token [1.2.3] matches the
    pattern, [float] raises on the token, and the run aborts. *)
Lemma matched_line_aborts_run :
  matching line_two_dots = true /\
  py_float (list_ascii_of_string "1.2.3") = Raise ValueError /\
  parse_line 4300 line_two_dots = Some (Raise ValueError) /\
  fst (main 4300 show_row (world_of [line_hit; line_two_dots])) = Raise ValueError.
Proof. vm_compute. by repeat split. Qed.

(** C9.  A line yields a row only if it begins with the timestamp: a line
    whose first twenty characters are not [dddd/dd/dd dd:dd:dd] and a
    blank is skipped, the loop leaving the rows as they were; so is any
    line put after a character that is not a digit, a blank for
    instance. *)
Theorem timestamp_at_line_start (d : nat) (line : string) :
  (parse_line d line <> None ->
   timestamp_shape (list_ascii_of_string line) = true) /\
  (timestamp_shape (list_ascii_of_string line) = false ->
   parse_line d line = None /\ forall rows, parse_log d [line] rows = Ok rows) /\
  (forall c, Text.isdigit c = false -> parse_line d (String c line) = None).
Proof.
  assert (Hshape : forall l, parse_line d l <> None ->
            timestamp_shape (list_ascii_of_string l) = true).
  { intros l Hl. unfold parse_line in Hl.
    destruct (Regex.search line_re (list_ascii_of_string l)) as [m|] eqn:Hm; [|done].
    destruct (line_re_match_inv _ _ Hm)
      as (ts & junk & tag & sp & sym & sgn & pnl & cap & idx & total & rest & Hl' & Hts
          & Hlen & _).
    rewrite Hl'. clear -Hts Hlen.
    do 20 (destruct ts as [|? ts]; simpl in Hlen; try lia).
    exact Hts. }
  assert (Hskip : forall l, timestamp_shape (list_ascii_of_string l) = false ->
            parse_line d l = None).
  { intros l Hl. destruct (parse_line d l) eqn:Hp; [|done].
    rewrite Hshape in Hl; [done|]. by rewrite Hp. }
  split; [apply Hshape|]. split.
  - intros H. split; [by apply Hskip|]. intros rows. simpl. by rewrite Hskip.
  - intros c Hc. apply Hskip. simpl. by apply timestamp_shape_first.
Qed.

Lemma timestamp_at_line_start_witness :
  timestamp_shape (list_ascii_of_string line_miss) = true /\
  (parse_line 4300 line_indented = None /\
   forall rows, parse_log 4300 [line_indented] rows = Ok rows) /\
  parse_line 4300 (String " " line_miss) = None.
Proof.
  split; [|split].
  - apply (timestamp_at_line_start 4300 line_miss). vm_compute. discriminate.
  - apply (timestamp_at_line_start 4300 line_indented). vm_compute. reflexivity.
  - apply (timestamp_at_line_start 4300 line_miss). vm_compute. reflexivity.
Defined.

(** C10.  There is a line whose symbol field, between the status marker
    and the next bar, is blank throughout and which still yields a row;
    the symbol of that row is the empty string, and the empty string is a
    key of the aggregation and heads a row of the summary. *)
Theorem blank_symbol_is_a_key (d : nat) :
  exists line field r rest,
    list_ascii_of_string line =
      list_ascii_of_string "2024/01/01 09:03:00 SIM HIT:" ++ field
      ++ list_ascii_of_string "| PnL=$1 | Capital=$1 | Trades: 1/1" /\
    Forall (fun c => Text.isspace c = true) field /\
    parse_line d line = Some (Ok r) /\
    symbol r = "" /\
    "" ∈ dom (cnt (aggregate [r])) /\
    summary_rows (aggregate [r]) (sorted_keys (aggregate [r])) = Ok [CStr "" :: rest].
Proof.
  exists line_blank_symbol, (list_ascii_of_string "   ").
  assert (Hline : exists r, parse_line d line_blank_symbol = Some (Ok r) /\
            r = {| timestamp := "2024/01/01 09:03:00"; status := "HIT"; symbol := "";
                   pnl_usd := Float64.of_Z 1; capital_usd := Float64.of_Z 1;
                   trade_index := 1; total_trades := 1 |}).
  { destruct d as [|[|d]]; eexists; (split; [vm_compute; reflexivity|reflexivity]). }
  destruct Hline as (r & Hr & ->). eexists _, _. split; [reflexivity|].
  split; [by repeat constructor|]. split; [exact Hr|]. split; [reflexivity|].
  split; [by vm_compute|]. vm_compute. reflexivity.
Qed.

(** ** The run *)

(** C8.  When the log is missing or cannot be opened as a file, the run
    ends with the exception raised ([FileNotFoundError] for a missing
    path, [IsADirectoryError] for a directory, or the [FileExistsError]
    of [os.makedirs] when it fails first); the two tables are left as
    they were, so none is created, and nothing is printed.  Only the
    output directory may have been created. *)
Theorem missing_log_is_fatal (d : nat) (render : list cell -> string) (w : world) :
  (forall content, fs w !! log_file <> Some (File content)) ->
  exists e w',
    main d render w = (Raise e, w') /\
    e = match fs w !! out_dir, fs w !! log_file with
        | Some (File _), _ => FileExistsError
        | _, None => FileNotFoundError
        | _, Some _ => IsADirectoryError
        end /\
    fs w' !! per_trade_path = fs w !! per_trade_path /\
    fs w' !! summary_path = fs w !! summary_path /\
    stdout w' = stdout w /\
    (fs w' = fs w \/ fs w' = <[out_dir := Dir]> (fs w)).
Proof.
  destruct paths_distinct as (Hps & Hol & Hop & Hos & Hlp & Hls).
  intros Hlog. unfold main, io_bind, makedirs, read_file.
  destruct (fs w !! out_dir) as [[|c]|] eqn:Hdir; simpl.
  - destruct (fs w !! log_file) as [[|c]|] eqn:Hl; [|by destruct (Hlog c)|];
      eexists _, _; repeat split; auto.
  - eexists _, _; repeat split; auto.
  - rewrite lookup_insert_ne by done.
    destruct (fs w !! log_file) as [[|c]|] eqn:Hl; [|by destruct (Hlog c)|];
      eexists _, _; (split; [reflexivity|]); simpl;
      rewrite !lookup_insert_ne by done; repeat split; auto.
Qed.

Lemma missing_log_is_fatal_witness :
  let w := {| fs := ∅; stdout := [] |} in
  exists e w',
    main 4300 show_row w = (Raise e, w') /\
    e = match fs w !! out_dir, fs w !! log_file with
        | Some (File _), _ => FileExistsError
        | _, None => FileNotFoundError
        | _, Some _ => IsADirectoryError
        end /\
    fs w' !! per_trade_path = fs w !! per_trade_path /\
    fs w' !! summary_path = fs w !! summary_path /\
    stdout w' = stdout w /\
    (fs w' = fs w \/ fs w' = <[out_dir := Dir]> (fs w)).
Proof.
  intros w. apply (missing_log_is_fatal 4300 show_row w).
  intros content. vm_compute. discriminate.
Defined.



(** ** The summary *)

Lemma Forall2_each_right {A B} (R : A -> B -> Prop) (Q : B -> Prop) l k :
  Forall2 R l k -> (forall x y, x ∈ l -> R x y -> Q y) -> Forall Q k.
Proof.
  induction 1 as [|x y l k Hxy _ IH]; intros HQ; constructor.
  - apply (HQ x); [set_solver|done].
  - apply IH. intros x' y' Hx'. apply HQ. set_solver.
Qed.

Lemma Forall2_impl_elem {A B} (R R' : A -> B -> Prop) l k :
  Forall2 R l k -> (forall x y, x ∈ l -> R x y -> R' x y) -> Forall2 R' l k.
Proof.
  induction 1 as [|x y l k Hxy _ IH]; intros HR; constructor.
  - apply HR; [set_solver|done].
  - apply IH. intros x' y' Hx'. apply HR. set_solver.
Qed.

Lemma summary_rows_each a syms srows :
  summary_rows a syms = Ok srows ->
  Forall2 (fun sym srow => summary_row a sym = Ok srow) syms srows.
Proof.
  revert srows. induction syms as [|sym syms IH]; intros srows H; simpl in H.
  - simplify_eq. constructor.
  - destruct (summary_row a sym) as [row|] eqn:Hrow; [|done]. simpl in H.
    destruct (summary_rows a syms) as [more|]; [|done]. simpl in H.
    simplify_eq. constructor; auto.
Qed.

Lemma get_int_tally {A} (d : gmap string Z) sym (l : list A) :
  d !! sym = tally l -> get_int d sym = Z.of_nat (length l).
Proof. unfold get_int. intros ->. by destruct l. Qed.

Lemma length_hits_misses (l : list trade) :
  (length (filter (fun r => is_hit r = true) l)
   + length (filter (fun r => is_hit r = false) l) = length l)%nat.
Proof.
  induction l as [|r l IH]; [done|].
  rewrite !filter_cons. destruct (is_hit r); simpl; lia.
Qed.

(** The row written for a symbol that has rows in the log. *)
Lemma summary_row_cells rows sym srow :
  summary_row (aggregate rows) sym = Ok srow ->
  rows_of sym rows <> [] ->
  let l := rows_of sym rows in
  let h := Z.of_nat (length (filter (fun r => is_hit r = true) l)) in
  let ms := Z.of_nat (length (filter (fun r => is_hit r = false) l)) in
  let t := Z.of_nat (length l) in
  exists hf tf s mx mn,
    Float64.of_int h = Ok hf /\ Float64.of_int t = Ok tf /\
    running_sum (pnls_of sym rows) = Some s /\
    running_max (pnls_of sym rows) = Some mx /\
    running_min (pnls_of sym rows) = Some mn /\
    srow = [CStr sym; CInt h; CInt ms; CInt t;
            CFloat (Float64.round2 (Float64.div (Float64.mul Float64.hundred hf) tf));
            CFloat (Float64.round2 (Float64.div s tf));
            CFloat (Float64.round2 s);
            CFloat (Float64.round2 mx); CFloat (Float64.round2 mn)].
Proof.
  intros Hrow Hne l h ms t. unfold summary_row in Hrow.
  rewrite (get_int_tally _ _ _ (cnt_aggregate rows sym)) in Hrow.
  rewrite (get_int_tally _ _ _ (hits_aggregate rows sym)) in Hrow.
  rewrite (get_int_tally _ _ _ (miss_aggregate rows sym)) in Hrow.
  fold l h ms t in Hrow.
  assert (Ht : (t =? 0) = false).
  { apply Z.eqb_neq. subst t l. destruct (rows_of sym rows); [done|]. simpl. lia. }
  unfold win_rate, average, get_item, get_float in Hrow. rewrite Ht in Hrow.
  rewrite sum_p_aggregate, max_p_aggregate, min_p_aggregate in Hrow.
  destruct (Float64.of_int h) as [hf|]; [|done].
  destruct (Float64.of_int t) as [tf|]; [|done].
  assert (Hs : exists s, running_sum (pnls_of sym rows) = Some s).
  { unfold pnls_of. fold l. destruct l; [done|]. by eexists. }
  destruct Hs as [s Hs]. rewrite Hs in Hrow.
  destruct (running_max (pnls_of sym rows)) as [mx|]; [|done].
  destruct (running_min (pnls_of sym rows)) as [mn|]; [|done].
  cbn [obind default] in Hrow. injection Hrow as <-.
  by exists hf, tf, s, mx, mn.
Qed.

Lemma rows_of_nonempty rows sym :
  sym ∈ sorted_keys (aggregate rows) -> rows_of sym rows <> [].
Proof.
  rewrite elem_of_sorted_keys, elem_of_dom, cnt_aggregate. apply tally_is_Some.
Qed.

(** The rows of the summary of a run that returns: one per key, in the
    order of the sorted keys. *)
Lemma summary_of_run d render w w' :
  main d render w = (Ok tt, w') ->
  let rows := run_rows d w in
  exists srows,
    fs w' !! summary_path = Some (File (written render "" (summary_header :: srows))) /\
    Forall2 (fun sym srow => summary_row (aggregate rows) sym = Ok srow)
            (sorted_keys (aggregate rows)) srows /\
    Forall (fun r => Float64.is_nan (pnl_usd r) = false) rows.
Proof.
  intros (content & srows & _ & Hparse & Hsum & _ & Hsm & _)%main_returns.
  exists srows. split; [done|]. split; [by apply summary_rows_each|].
  by eapply parse_log_not_nan.
Qed.

(** C3.  In a run that returns, every row of the summary starts with a
    symbol and its hits, misses and total; hits plus misses is the total,
    and the total is the number of rows of the per-trade table with that
    symbol.  In the dictionaries themselves the hits and the misses of a
    key add up to its count, for every key. *)
Theorem summary_counts (d : nat) (render : list cell -> string) (w w' : world) :
  main d render w = (Ok tt, w') ->
  let rows := run_rows d w in
  fs w' !! per_trade_path =
    Some (File (written render "" (per_trade_header :: map trade_cells rows))) /\
  (forall sym, get_int (hits (aggregate rows)) sym + get_int (miss (aggregate rows)) sym
               = get_int (cnt (aggregate rows)) sym) /\
  exists srows,
    fs w' !! summary_path = Some (File (written render "" (summary_header :: srows))) /\
    Forall (fun srow => exists sym h ms t rest,
              srow = CStr sym :: CInt h :: CInt ms :: CInt t :: rest /\
              h + ms = t /\
              t = Z.of_nat (length (filter (fun r => symbol r = sym) rows))) srows.
Proof.
  intros Hmain rows.
  destruct (per_trade_file_of_run d render w w' Hmain) as [Hpt _].
  split; [exact Hpt|]. split.
  - intros sym.
    rewrite (get_int_tally _ _ _ (cnt_aggregate rows sym)).
    rewrite (get_int_tally _ _ _ (hits_aggregate rows sym)).
    rewrite (get_int_tally _ _ _ (miss_aggregate rows sym)).
    pose proof (length_hits_misses (rows_of sym rows)). lia.
  - destruct (summary_of_run d render w w' Hmain) as (srows & Hsm & Hrows & _).
    exists srows. split; [done|]. fold rows in Hrows.
    eapply Forall2_each_right; [exact Hrows|].
    intros sym srow Hsym Hrow. cbv beta in Hrow.
    destruct (summary_row_cells rows sym srow Hrow (rows_of_nonempty _ _ Hsym))
      as (hf & tf & s & mx & mn & _ & _ & _ & _ & _ & ->).
    eexists _, _, _, _, _. split; [reflexivity|]. split; [|done].
    pose proof (length_hits_misses (rows_of sym rows)). lia.
Qed.

Lemma summary_counts_witness :
  let w := world_of [line_hit; line_miss; line_blank_symbol] in
  let w' := snd (main 4300 show_row w) in
  let rows := run_rows 4300 w in
  fs w' !! per_trade_path =
    Some (File (written show_row "" (per_trade_header :: map trade_cells rows))) /\
  (forall sym, get_int (hits (aggregate rows)) sym + get_int (miss (aggregate rows)) sym
               = get_int (cnt (aggregate rows)) sym) /\
  exists srows,
    fs w' !! summary_path = Some (File (written show_row "" (summary_header :: srows))) /\
    Forall (fun srow => exists sym h ms t rest,
              srow = CStr sym :: CInt h :: CInt ms :: CInt t :: rest /\
              h + ms = t /\
              t = Z.of_nat (length (filter (fun r => symbol r = sym) rows))) srows.
Proof.
  intros w w'. apply (summary_counts 4300 show_row w w'). vm_compute. reflexivity.
Defined.

(** C4.  In a run that returns, the row of a symbol holds, after the
    symbol and the three counts, [round(., 2)] of the win rate
    [100.0 * hits / total], of the average [sum / total], of the sum, of
    the maximum and of the minimum.  The total is positive, so the
    defensive 0.0 is never taken; the counts are the exact numbers of
    rows; the sum is the chain of binary64 additions over the profits of
    the symbol in log order, starting from 0.0, and nothing is rounded to
    decimals before the row is written.  Each of the five floats of the
    row is its value rounded to two decimals: the number of hundredths
    nearest to the exact value of the float, the even one at a tie, read
    back by [float] from its decimal with two digits after the point;
    an infinity or a NaN is written as it is. *)
Theorem summary_cells (d : nat) (render : list cell -> string) (w w' : world) :
  main d render w = (Ok tt, w') ->
  let rows := run_rows d w in
  exists srows,
    fs w' !! summary_path = Some (File (written render "" (summary_header :: srows))) /\
    Forall (fun srow => exists sym h ms t hf tf s mx mn,
              srow = [CStr sym; CInt h; CInt ms; CInt t;
                      CFloat (Float64.round2
                                (Float64.div (Float64.mul Float64.hundred hf) tf));
                      CFloat (Float64.round2 (Float64.div s tf));
                      CFloat (Float64.round2 s);
                      CFloat (Float64.round2 mx); CFloat (Float64.round2 mn)] /\
              0 < t /\
              t = Z.of_nat (length (rows_of sym rows)) /\
              h = Z.of_nat (length (filter (fun r => is_hit r = true) (rows_of sym rows))) /\
              Float64.of_int h = Ok hf /\ Float64.of_int t = Ok tf /\
              s = fold_left Float64.add (pnls_of sym rows) Float64.zero /\
              max_p (aggregate rows) !! sym = Some mx /\
              min_p (aggregate rows) !! sym = Some mn /\
              win_rate h t = Ok (Float64.div (Float64.mul Float64.hundred hf) tf) /\
              average s t = Ok (Float64.div s tf) /\
              rounded_to_cents (Float64.div (Float64.mul Float64.hundred hf) tf)
                (Float64.round2 (Float64.div (Float64.mul Float64.hundred hf) tf)) /\
              rounded_to_cents (Float64.div s tf) (Float64.round2 (Float64.div s tf)) /\
              rounded_to_cents s (Float64.round2 s) /\
              rounded_to_cents mx (Float64.round2 mx) /\
              rounded_to_cents mn (Float64.round2 mn)) srows.
Proof.
  intros Hmain rows.
  destruct (summary_of_run d render w w' Hmain) as (srows & Hsm & Hrows & _).
  exists srows. split; [done|]. fold rows in Hrows.
  eapply Forall2_each_right; [exact Hrows|].
  intros sym srow Hsym Hrow. cbv beta in Hrow.
  pose proof (rows_of_nonempty _ _ Hsym) as Hne.
  destruct (summary_row_cells rows sym srow Hrow Hne)
    as (hf & tf & s & mx & mn & Hhf & Htf & Hs & Hmx & Hmn & ->).
  assert (Ht : 0 < Z.of_nat (length (rows_of sym rows))).
  { destruct (rows_of sym rows); [done|]. simpl. lia. }
  eexists sym, _, _, _, hf, tf, s, mx, mn. split; [reflexivity|].
  rewrite max_p_aggregate, min_p_aggregate.
  assert (Hsum : s = fold_left Float64.add (pnls_of sym rows) Float64.zero).
  { unfold running_sum in Hs. destruct (pnls_of sym rows); by simplify_eq. }
  repeat split; auto using round2_rounded.
  - unfold win_rate. rewrite Hhf, Htf.
    by destruct (Z.eqb_spec (Z.of_nat (length (rows_of sym rows))) 0); [lia|].
  - unfold average. rewrite Htf.
    by destruct (Z.eqb_spec (Z.of_nat (length (rows_of sym rows))) 0); [lia|].
Qed.

Lemma summary_cells_witness :
  let w := world_of [line_hit; line_miss] in
  let w' := snd (main 4300 show_row w) in
  let rows := run_rows 4300 w in
  exists srows,
    fs w' !! summary_path = Some (File (written show_row "" (summary_header :: srows))) /\
    Forall (fun srow => exists sym h ms t hf tf s mx mn,
              srow = [CStr sym; CInt h; CInt ms; CInt t;
                      CFloat (Float64.round2
                                (Float64.div (Float64.mul Float64.hundred hf) tf));
                      CFloat (Float64.round2 (Float64.div s tf));
                      CFloat (Float64.round2 s);
                      CFloat (Float64.round2 mx); CFloat (Float64.round2 mn)] /\
              0 < t /\
              t = Z.of_nat (length (rows_of sym rows)) /\
              h = Z.of_nat (length (filter (fun r => is_hit r = true) (rows_of sym rows))) /\
              Float64.of_int h = Ok hf /\ Float64.of_int t = Ok tf /\
              s = fold_left Float64.add (pnls_of sym rows) Float64.zero /\
              max_p (aggregate rows) !! sym = Some mx /\
              min_p (aggregate rows) !! sym = Some mn /\
              win_rate h t = Ok (Float64.div (Float64.mul Float64.hundred hf) tf) /\
              average s t = Ok (Float64.div s tf) /\
              rounded_to_cents (Float64.div (Float64.mul Float64.hundred hf) tf)
                (Float64.round2 (Float64.div (Float64.mul Float64.hundred hf) tf)) /\
              rounded_to_cents (Float64.div s tf) (Float64.round2 (Float64.div s tf)) /\
              rounded_to_cents s (Float64.round2 s) /\
              rounded_to_cents mx (Float64.round2 mx) /\
              rounded_to_cents mn (Float64.round2 mn)) srows.
Proof.
  intros w w'. apply (summary_cells 4300 show_row w w'). vm_compute. reflexivity.
Defined.

(** C6.  In a run that returns, the last two cells of the row of a symbol
    are [round(., 2)] of the maximum and of the minimum of the profits of
    that symbol's rows: each is one of those profits, none of them is
    greater than the maximum, none is smaller than the minimum.  The step
    of the aggregation starts both running values, for a symbol seen for
    the first time, at the profit of that row. *)
Theorem summary_extrema (d : nat) (render : list cell -> string) (w w' : world) :
  main d render w = (Ok tt, w') ->
  let rows := run_rows d w in
  (exists srows,
    fs w' !! summary_path = Some (File (written render "" (summary_header :: srows))) /\
    Forall (fun srow => exists sym c1 c2 c3 c4 c5 c6 mx mn,
              srow = [CStr sym; c1; c2; c3; c4; c5; c6;
                      CFloat (Float64.round2 mx); CFloat (Float64.round2 mn)] /\
              max_p (aggregate rows) !! sym = Some mx /\
              min_p (aggregate rows) !! sym = Some mn /\
              mx ∈ pnls_of sym rows /\ mn ∈ pnls_of sym rows /\
              forall p, p ∈ pnls_of sym rows ->
                Float64.leb p mx = true /\ Float64.ltb mx p = false /\
                Float64.leb mn p = true /\ Float64.ltb p mn = false) srows) /\
  (forall a r, max_p a !! symbol r = None ->
               max_p (agg_step a r) !! symbol r = Some (pnl_usd r)) /\
  (forall a r, min_p a !! symbol r = None ->
               min_p (agg_step a r) !! symbol r = Some (pnl_usd r)).
Proof.
  intros Hmain rows. split; [|split].
  - destruct (summary_of_run d render w w' Hmain) as (srows & Hsm & Hrows & Hnan).
    exists srows. split; [done|]. fold rows in Hrows, Hnan.
    eapply Forall2_each_right; [exact Hrows|].
    intros sym srow Hsym Hrow. cbv beta in Hrow.
    destruct (summary_row_cells rows sym srow Hrow (rows_of_nonempty _ _ Hsym))
      as (hf & tf & s & mx & mn & _ & _ & _ & Hmx & Hmn & ->).
    pose proof (running_max_greatest _ (pnls_of_not_nan sym rows Hnan)) as Hgreatest.
    pose proof (running_min_least _ (pnls_of_not_nan sym rows Hnan)) as Hleast.
    rewrite Hmx in Hgreatest. rewrite Hmn in Hleast.
    destruct Hgreatest as [Hmx_in Hmx_ge], Hleast as [Hmn_in Hmn_le].
    eexists sym, _, _, _, _, _, _, mx, mn. split; [reflexivity|].
    rewrite max_p_aggregate, min_p_aggregate. repeat split; auto.
    + rewrite Forall_forall in Hmx_ge. by apply Hmx_ge.
    + rewrite Forall_forall in Hmx_ge. by apply leb_not_ltb, Hmx_ge.
    + rewrite Forall_forall in Hmn_le. by apply Hmn_le.
    + rewrite Forall_forall in Hmn_le. by apply leb_not_ltb, Hmn_le.
  - intros a r Hnone. unfold agg_step. cbn [max_p]. rewrite Hnone.
    by rewrite lookup_insert_eq.
  - intros a r Hnone. unfold agg_step. cbn [min_p]. rewrite Hnone.
    by rewrite lookup_insert_eq.
Qed.

Lemma summary_extrema_witness :
  let w := world_of [line_hit; line_miss; line_big; line_minus_big] in
  let w' := snd (main 4300 show_row w) in
  let rows := run_rows 4300 w in
  (exists srows,
    fs w' !! summary_path = Some (File (written show_row "" (summary_header :: srows))) /\
    Forall (fun srow => exists sym c1 c2 c3 c4 c5 c6 mx mn,
              srow = [CStr sym; c1; c2; c3; c4; c5; c6;
                      CFloat (Float64.round2 mx); CFloat (Float64.round2 mn)] /\
              max_p (aggregate rows) !! sym = Some mx /\
              min_p (aggregate rows) !! sym = Some mn /\
              mx ∈ pnls_of sym rows /\ mn ∈ pnls_of sym rows /\
              forall p, p ∈ pnls_of sym rows ->
                Float64.leb p mx = true /\ Float64.ltb mx p = false /\
                Float64.leb mn p = true /\ Float64.ltb p mn = false) srows) /\
  (forall a r, max_p a !! symbol r = None ->
               max_p (agg_step a r) !! symbol r = Some (pnl_usd r)) /\
  (forall a r, min_p a !! symbol r = None ->
               min_p (agg_step a r) !! symbol r = Some (pnl_usd r)).
Proof.
  intros w w'. apply (summary_extrema 4300 show_row w w'). vm_compute. reflexivity.
Defined.

(** C7.  In a run that returns, the summary has one row for each symbol
    of the rows read, and no other: the symbols heading its rows are
    pairwise distinct, they are exactly the keys of the aggregation, which
    are exactly the symbols that occur in the rows, and they are in
    ascending lexicographic order. *)
Theorem summary_keys_sorted (d : nat) (render : list cell -> string) (w w' : world) :
  main d render w = (Ok tt, w') ->
  let rows := run_rows d w in
  exists srows syms,
    fs w' !! summary_path = Some (File (written render "" (summary_header :: srows))) /\
    Forall2 (fun sym srow => exists rest, srow = CStr sym :: rest) syms srows /\
    NoDup syms /\
    StronglySorted String.le syms /\
    (forall i j s t, syms !! i = Some s -> syms !! j = Some t -> (i < j)%nat ->
                     String.ltb s t = true) /\
    (forall sym, sym ∈ syms <-> sym ∈ dom (cnt (aggregate rows))) /\
    (forall sym, sym ∈ syms <-> exists r, r ∈ rows /\ symbol r = sym).
Proof.
  intros Hmain rows.
  destruct (summary_of_run d render w w' Hmain) as (srows & Hsm & Hrows & _).
  fold rows in Hrows. exists srows, (sorted_keys (aggregate rows)).
  split; [done|]. split; [|split; [|split; [|split; [|split]]]].
  - eapply Forall2_impl_elem; [exact Hrows|].
    intros sym srow Hsym Hrow. cbv beta in Hrow.
    destruct (summary_row_cells rows sym srow Hrow (rows_of_nonempty _ _ Hsym))
      as (? & ? & ? & ? & ? & _ & _ & _ & _ & _ & ->).
    by eexists.
  - apply NoDup_sorted_keys.
  - apply StronglySorted_sorted_keys.
  - intros i j s t Hi Hj Hij. apply sorted_strict with (l := sorted_keys (aggregate rows)) (i := i) (j := j);
      auto using NoDup_sorted_keys, StronglySorted_sorted_keys.
  - intros sym. apply elem_of_sorted_keys.
  - intros sym. rewrite elem_of_sorted_keys. apply elem_of_dom_cnt.
Qed.

Lemma summary_keys_sorted_witness :
  let w := world_of [line_hit; line_big; line_blank_symbol; line_miss] in
  let w' := snd (main 4300 show_row w) in
  let rows := run_rows 4300 w in
  exists srows syms,
    fs w' !! summary_path = Some (File (written show_row "" (summary_header :: srows))) /\
    Forall2 (fun sym srow => exists rest, srow = CStr sym :: rest) syms srows /\
    NoDup syms /\
    StronglySorted String.le syms /\
    (forall i j s t, syms !! i = Some s -> syms !! j = Some t -> (i < j)%nat ->
                     String.ltb s t = true) /\
    (forall sym, sym ∈ syms <-> sym ∈ dom (cnt (aggregate rows))) /\
    (forall sym, sym ∈ syms <-> exists r, r ∈ rows /\ symbol r = sym).
Proof.
  intros w w'. apply (summary_keys_sorted 4300 show_row w w'). vm_compute. reflexivity.
Defined.

(** ** The aggregation under a change of order *)

(** C2 (as amended).  Folding a permutation of the rows gives the same
    counts, the same hits and the same misses, key by key; and, when no
    profit is a NaN, maxima and minima that are equal as numbers for every
    key (they can differ in the sign of a zero).  The sums have the same
    keys. *)
Theorem aggregate_permutation (rows rows' : list trade) :
  rows ≡ₚ rows' ->
  cnt (aggregate rows) = cnt (aggregate rows') /\
  hits (aggregate rows) = hits (aggregate rows') /\
  miss (aggregate rows) = miss (aggregate rows') /\
  dom (sum_p (aggregate rows)) = dom (sum_p (aggregate rows')) /\
  (Forall (fun r => Float64.is_nan (pnl_usd r) = false) rows ->
   forall sym,
     same_number (max_p (aggregate rows) !! sym) (max_p (aggregate rows') !! sym) /\
     same_number (min_p (aggregate rows) !! sym) (min_p (aggregate rows') !! sym)).
Proof.
  intros Hperm. repeat split.
  - apply map_eq. intros sym. rewrite !cnt_aggregate.
    by apply tally_Permutation, rows_of_Permutation.
  - apply map_eq. intros sym. rewrite !hits_aggregate.
    apply tally_Permutation. by rewrite (rows_of_Permutation sym _ _ Hperm).
  - apply map_eq. intros sym. rewrite !miss_aggregate.
    apply tally_Permutation. by rewrite (rows_of_Permutation sym _ _ Hperm).
  - apply set_eq. intros sym. rewrite !elem_of_dom, !sum_p_aggregate.
    pose proof (pnls_of_Permutation sym _ _ Hperm) as Hp. unfold running_sum.
    destruct (pnls_of sym rows), (pnls_of sym rows'); try done.
    + by apply Permutation_nil_l in Hp.
    + by apply Permutation_nil_r in Hp.
  - rewrite !max_p_aggregate.
    apply running_max_Permutation; auto using pnls_of_Permutation, pnls_of_not_nan.
  - rewrite !min_p_aggregate.
    apply running_min_Permutation; auto using pnls_of_Permutation, pnls_of_not_nan.
Qed.

Lemma aggregate_permutation_witness :
  cnt (aggregate rows_in_order) = cnt (aggregate rows_exchanged) /\
  hits (aggregate rows_in_order) = hits (aggregate rows_exchanged) /\
  miss (aggregate rows_in_order) = miss (aggregate rows_exchanged) /\
  dom (sum_p (aggregate rows_in_order)) = dom (sum_p (aggregate rows_exchanged)) /\
  same_number (max_p (aggregate rows_in_order) !! "A")
              (max_p (aggregate rows_exchanged) !! "A") /\
  same_number (min_p (aggregate rows_in_order) !! "A")
              (min_p (aggregate rows_exchanged) !! "A").
Proof.
  destruct (aggregate_permutation rows_in_order rows_exchanged)
    as (Hc & Hh & Hm & Hs & Hx).
  { vm_compute. apply perm_skip. apply perm_swap. }
  split; [exact Hc|]. split; [exact Hh|]. split; [exact Hm|]. split; [exact Hs|].
  apply Hx. vm_compute. by repeat constructor.
Defined.

(** C2 (as stated) fails: with the profits 1e16, 1 and -1e16 of one
    symbol the sum is 0.0, and with the last two rows exchanged it is
    1.0, because binary64 addition is not associative. *)
Lemma sum_depends_on_order :
  rows_exchanged ≡ₚ rows_in_order /\
  sum_p (aggregate rows_in_order) !! "A" = Some (S754_zero false) /\
  sum_p (aggregate rows_exchanged) !! "A" = Some (Float64.of_Z 1) /\
  aggregate rows_in_order <> aggregate rows_exchanged.
Proof.
  split; [vm_compute; apply perm_skip, perm_swap|].
  split; [by vm_compute|]. split; [by vm_compute|].
  intros H. apply (f_equal (fun a => sum_p a !! "A")) in H.
  vm_compute in H. discriminate.
Qed.

(** ** Worked examples *)

(** The two lines of one symbol: one hit of 12.50 and one miss of -5.00
    give the row AAPL, 1, 1, 2, 50.0, 3.75, 7.5, 12.5, -5.0. *)
Example summary_of_two_lines :
  summary_rows (aggregate (run_rows 4300 (world_of [line_hit; line_miss])))
               (sorted_keys (aggregate (run_rows 4300 (world_of [line_hit; line_miss])))) =
  Ok [[CStr "AAPL"; CInt 1; CInt 1; CInt 2;
       CFloat (Float64.of_Z 50); CFloat (Float64.of_ratio false 15 4);
       CFloat (Float64.of_ratio false 15 2); CFloat (Float64.of_ratio false 25 2);
       CFloat (Float64.of_Z (-5))]].
Proof. vm_compute. reflexivity. Qed.

(** A line without the trades segment yields no row and no key. *)
Example line_without_trades_is_skipped :
  parse_line 4300 line_no_trades = None /\
  run_rows 4300 (world_of [line_no_trades]) = [] /\
  sorted_keys (aggregate (run_rows 4300 (world_of [line_no_trades]))) = [].
Proof. vm_compute. by repeat split. Qed.

(** [round(., 2)] rounds the exact binary value: 0.125 is a tie and goes
    to the even 0.12, the double written 2.675 lies below the tie and goes
    to 2.67, and a small negative value keeps its sign on the zero. *)
Example round2_examples :
  Float64.round2 (Float64.of_ratio false 1 8) = Float64.of_ratio false 12 100 /\
  Float64.round2 (Float64.of_ratio false 2675 1000) = Float64.of_ratio false 267 100 /\
  Float64.round2 (Float64.of_ratio true 1 1000) = S754_zero true.
Proof. vm_compute. by repeat split. Qed.

(** The text of the log is cut at LF, CR LF and CR alike. *)
Example readlines_example :
  Text.readlines ("a" +:+ String Text.cr (String Text.nl ("b" +:+ String Text.cr "c"))) =
  ["a" +:+ String Text.nl ""; "b" +:+ String Text.nl ""; "c"].
Proof. vm_compute. reflexivity. Qed.

(** * Further properties of the script *)

(** ** The fields of a row *)


(** X1.  The test of the reading loop: [line_re.search(line)] finds a
    match exactly when the line starts with a text of the language of the
    pattern, read declaratively (anchor, literals, classes, bounded and
    unbounded repetitions, alternation, groups). *)
Theorem search_decides_the_pattern (d : nat) (line : string) :
  (parse_line d line <> None <->
   exists w rest caps,
     list_ascii_of_string line = w ++ rest /\ Regex.matches line_re 0 w ∅ caps) /\
  (parse_line d line = None <->
   forall w rest caps,
     list_ascii_of_string line = w ++ rest -> ~ Regex.matches line_re 0 w ∅ caps).
Proof.
  pose proof (matching_parse_line d line) as Hp.
  pose proof (matching_iff_matches line) as Hm.
  split; [by rewrite <- Hp|]. split.
  - intros Hnone w rest caps Hline Hmatch.
    apply Hp; [|done]. apply Hm. eauto.
  - intros Hno. destruct (parse_line d line) as [o|] eqn:Hl; [exfalso|done].
    assert (Ht : matching line = true) by (by apply Hp).
    apply Hm in Ht as (w & rest & caps & Hline & Hmatch). by destruct (Hno w rest caps).
Qed.

(** X2.  The first two fields of a row: the timestamp is the first
    nineteen characters of the line, and the status is HIT when the marker
    captured is [HIT:] and MISS when it is [MISS:], the only two markers a
    match can capture. *)
Theorem row_timestamp_and_status (d : nat) (line : string) (r : trade) :
  parse_line d line = Some (Ok r) ->
  timestamp r = string_of_list_ascii (take 19 (list_ascii_of_string line)) /\
  exists m tag,
    Regex.search line_re (list_ascii_of_string line) = Some m /\
    m !! 2%nat = Some tag /\
    (tag = list_ascii_of_string "HIT:" /\ status r = "HIT" \/
     tag = list_ascii_of_string "MISS:" /\ status r = "MISS").
Proof.
  intros (m & ts & junk & tag & sp & sym & sgn & pnl & cap & idx & total & rest & Hm & Hg
          & Hline & Hlen & Htag & _ & _ & _ & _ & Hts & Hst & _)%parse_line_fields.
  split.
  - rewrite Hts, Hline. f_equal. rewrite take_app_le by lia. by rewrite take_ge by lia.
  - exists m, tag. split; [done|]. split.
    + unfold Regex.groups in Hg. simpl in Hg. by injection Hg as _ -> _.
    + rewrite Hst. destruct Htag as [-> | ->]; [left|right]; by vm_compute.
Qed.

Lemma row_timestamp_and_status_witness :
  exists r, parse_line 4300 line_miss = Some (Ok r) /\
    timestamp r = string_of_list_ascii (take 19 (list_ascii_of_string line_miss)) /\
    exists m tag,
      Regex.search line_re (list_ascii_of_string line_miss) = Some m /\
      m !! 2%nat = Some tag /\
      (tag = list_ascii_of_string "HIT:" /\ status r = "HIT" \/
       tag = list_ascii_of_string "MISS:" /\ status r = "MISS").
Proof.
  eexists. split; [vm_compute; reflexivity|].
  apply (row_timestamp_and_status 4300 line_miss). vm_compute. reflexivity.
Defined.

(** ** Trimming *)

Lemma lstrip_spec s :
  exists a, s = a ++ Text.lstrip s /\ Forall (fun c => Text.isspace c = true) a /\
    forall c, head (Text.lstrip s) = Some c -> Text.isspace c = false.
Proof.
  induction s as [|c s (a & Hs & Ha & Hhead)]; simpl.
  - exists []. by repeat split.
  - destruct (Text.isspace c) eqn:Hc.
    + exists (c :: a). simpl. rewrite <- Hs. repeat split; auto.
    + exists []. repeat split; auto. intros c' [= <-]. done.
Qed.

Lemma last_rev {A} (l : list A) : last (rev l) = head l.
Proof. destruct l as [|x l]; [done|]. simpl. by rewrite last_snoc. Qed.

(** [s.strip()] is [s] without the blanks at its two ends, and has no
    blank at either end. *)
Lemma strip_spec s :
  exists a b, s = a ++ Text.strip s ++ b /\
    Forall (fun c => Text.isspace c = true) a /\
    Forall (fun c => Text.isspace c = true) b /\
    (forall c, head (Text.strip s) = Some c -> Text.isspace c = false) /\
    (forall c, last (Text.strip s) = Some c -> Text.isspace c = false).
Proof.
  unfold Text.strip.
  destruct (lstrip_spec s) as (a & Hs & Ha & Hhead).
  destruct (lstrip_spec (rev (Text.lstrip s))) as (b & Hr & Hb & Hlast).
  set (t := Text.lstrip s) in *. set (u := Text.lstrip (rev t)) in *.
  assert (Ht : t = rev u ++ rev b).
  { rewrite <- rev_app_distr, <- Hr. by rewrite rev_involutive. }
  exists a, (rev b). repeat split.
  - by rewrite <- Ht.
  - done.
  - by apply Forall_rev.
  - intros c Hc. apply Hhead. rewrite Ht, head_app, Hc. done.
  - intros c Hc. apply Hlast. by rewrite <- last_rev.
Qed.

(** X3.  The symbol of a row is the captured field without the blanks
    around it: it has no blank at either end and no bar anywhere. *)
Theorem row_symbol_is_trimmed (d : nat) (line : string) (r : trade) :
  parse_line d line = Some (Ok r) ->
  let sy := list_ascii_of_string (symbol r) in
  Forall (fun c => c <> "|"%char) sy /\
  (forall c, head sy = Some c -> Text.isspace c = false) /\
  (forall c, last sy = Some c -> Text.isspace c = false) /\
  exists m field a b,
    Regex.search line_re (list_ascii_of_string line) = Some m /\
    m !! 3%nat = Some field /\
    field = a ++ sy ++ b /\
    Forall (fun c => Text.isspace c = true) a /\
    Forall (fun c => Text.isspace c = true) b.
Proof.
  intros (m & ts & junk & tag & sp & sym & sgn & pnl & cap & idx & total & rest & Hm & Hg
          & _ & _ & _ & Hbar & _ & _ & _ & _ & _ & Hsym & _)%parse_line_fields.
  intros sy. subst sy. rewrite Hsym, list_ascii_of_string_of_list_ascii.
  destruct (strip_spec sym) as (a & b & Hfield & Ha & Hb & Hhead & Hlast).
  split; [|split; [done|split; [done|]]].
  - rewrite Hfield in Hbar. by apply Forall_app in Hbar as [_ [? _]%Forall_app].
  - exists m, sym, a, b. split; [done|]. split; [|done].
    unfold Regex.groups in Hg. simpl in Hg. by injection Hg as _ _ -> _.
Qed.

Lemma row_symbol_is_trimmed_witness :
  exists r, parse_line 4300 line_hit = Some (Ok r) /\
    let sy := list_ascii_of_string (symbol r) in
    Forall (fun c => c <> "|"%char) sy /\
    (forall c, head sy = Some c -> Text.isspace c = false) /\
    (forall c, last sy = Some c -> Text.isspace c = false) /\
    exists m field a b,
      Regex.search line_re (list_ascii_of_string line_hit) = Some m /\
      m !! 3%nat = Some field /\
      field = a ++ sy ++ b /\
      Forall (fun c => Text.isspace c = true) a /\
      Forall (fun c => Text.isspace c = true) b.
Proof.
  eexists. split; [vm_compute; reflexivity|].
  apply (row_symbol_is_trimmed 4300 line_hit). vm_compute. reflexivity.
Defined.

(** ** The numbers of a row *)

Lemma digit_value_range c z : Text.digit_value c = Some z -> 0 <= z <= 9.
Proof.
  unfold Text.digit_value.
  destruct (_ && _)%N eqn:H; [|done]. intros [= <-].
  apply andb_true_iff in H as [H1%N.leb_le H2%N.leb_le]. lia.
Qed.

Lemma digits_value_nonneg s : forall acc z,
  0 <= acc -> digits_value acc s = Some z -> 0 <= z.
Proof.
  induction s as [|c s IH]; intros acc z Hacc H; simpl in H; [by simplify_eq|].
  destruct (Text.digit_value c) as [v|] eqn:Hc; [|done].
  apply digit_value_range in Hc. apply (IH (10 * acc + v)); [lia|done].
Qed.

Lemma py_int_nonneg d s z : py_int d s = Ok z -> 0 <= z.
Proof.
  unfold py_int. destruct s; [done|].
  destruct (digits_value 0 _) as [v|] eqn:Hv; [|done].
  destruct (_ && _); [done|]. intros [= <-]. by eapply digits_value_nonneg.
Qed.

Lemma binary_round_aux_sign pr em s m e l :
  0 <= m -> negative (binary_round_aux pr em s m e l) = s.
Proof.
  intros Hm. unfold binary_round_aux.
  pose proof (shr_fexp_nonneg pr em m e l Hm) as H1.
  destruct (shr_fexp pr em m e l) as [mrs' e']. simpl in H1.
  pose proof (shr_fexp_nonneg pr em _ e' loc_Exact
    (round_nearest_even_nonneg _ (loc_of_shr_record mrs') H1)) as H2.
  destruct (shr_fexp pr em (round_nearest_even _ _) e' loc_Exact) as [mrs'' e''].
  simpl in H2. destruct (shr_m mrs''); [done| |lia].
  by destruct (_ <=? _).
Qed.

Lemma of_ratio_sign neg n d : negative (Float64.of_ratio neg n d) = neg.
Proof.
  unfold Float64.of_ratio, SFdiv_core_binary.
  set (m' := match _ - _ with Z0 => _ | Zpos _ => _ | Zneg _ => _ end).
  assert (Hm' : 0 <= m').
  { subst m'. destruct (_ - _); try lia. apply Z.shiftl_nonneg. lia. }
  pose proof (Z_div_mod m' (Zpos d) eq_refl) as Hdiv.
  destruct (Z.div_eucl m' (Zpos d)) as [q r].
  apply binary_round_aux_sign. nia.
Qed.

(** The sign bit of [float(s)] is set exactly when [s] starts with a
    minus sign. *)
Lemma py_float_sign s f :
  py_float s = Ok f ->
  negative f = match s with c :: _ => Ascii.eqb c "-"%char | [] => false end.
Proof.
  unfold py_float.
  assert (Hneg : fst (match s with
                      | c :: t => if Ascii.eqb c "-"%char then (true, t)
                                  else if Ascii.eqb c "+"%char then (false, t)
                                  else (false, s)
                      | [] => (false, s)
                      end) =
                 match s with c :: _ => Ascii.eqb c "-"%char | [] => false end).
  { destruct s as [|c t]; [done|]. destruct (Ascii.eqb c "-"%char); [done|].
    by destruct (Ascii.eqb c "+"%char). }
  destruct (match s with [] => _ | _ => _ end) as [neg body]. simpl in Hneg. subst neg.
  destruct (split_dot body) as [ip fp].
  destruct (ip ++ default [] fp); [done|].
  destruct (digits_value 0 _) as [[| |]|]; intros [= <-]; auto using of_ratio_sign.
Qed.

Lemma leb_zero_of_sign x :
  Float64.is_nan x = false ->
  if negative x then Float64.leb x Float64.zero = true
  else Float64.leb Float64.zero x = true.
Proof. by destruct x as [[]|[]| |[] ? ?]. Qed.

(** X4.  The numbers of a row: the trade index and the total are not
    negative; the capital is a number (not a NaN) whose sign bit is clear,
    so it is at least 0.0; the profit is a number whose sign bit is set
    exactly when the captured token starts with a minus sign, so it is at
    most 0.0 with the sign and at least 0.0 without. *)
Theorem row_numbers_in_range (d : nat) (line : string) (r : trade) :
  parse_line d line = Some (Ok r) ->
  0 <= trade_index r /\ 0 <= total_trades r /\
  Float64.is_nan (capital_usd r) = false /\ negative (capital_usd r) = false /\
  Float64.leb Float64.zero (capital_usd r) = true /\
  Float64.is_nan (pnl_usd r) = false /\
  exists m pnl,
    Regex.search line_re (list_ascii_of_string line) = Some m /\
    m !! 4%nat = Some pnl /\
    negative (pnl_usd r) = Text.starts_with ["-"%char] pnl /\
    (if Text.starts_with ["-"%char] pnl
     then Float64.leb (pnl_usd r) Float64.zero = true
     else Float64.leb Float64.zero (pnl_usd r) = true).
Proof.
  intros (m & ts & junk & tag & sp & sym & sgn & pnl & cap & idx & total & rest & Hm & Hg
          & _ & _ & _ & _ & Hsgn & Hpnl & Hcap & _ & _ & _ & Hp & Hc & Hi & Ht)%parse_line_fields.
  pose proof (py_float_not_nan _ _ Hc) as Hcn.
  pose proof (py_float_not_nan _ _ Hp) as Hpn.
  pose proof (py_float_sign _ _ Hc) as Hcs.
  pose proof (py_float_sign _ _ Hp) as Hps.
  assert (Hcs' : negative (capital_usd r) = false).
  { rewrite Hcs. destruct Hcap as [|c cap Hc0 _]; [done|].
    by destruct (number_chars_not_sign c Hc0) as [-> _]. }
  split; [by eapply py_int_nonneg|]. split; [by eapply py_int_nonneg|].
  split; [done|]. split; [done|]. split.
  { pose proof (leb_zero_of_sign _ Hcn) as H. by rewrite Hcs' in H. }
  split; [done|]. exists m, (sgn ++ pnl). split; [done|]. split.
  { unfold Regex.groups in Hg. simpl in Hg. by injection Hg as _ _ _ -> _. }
  assert (Hstart : Text.starts_with ["-"%char] (sgn ++ pnl) =
                   match sgn ++ pnl with c :: _ => Ascii.eqb c "-"%char | [] => false end).
  { destruct (sgn ++ pnl) as [|c t]; [done|].
    destruct (Ascii.eqb_spec c "-"%char) as [->|Hne]; [reflexivity|].
    change (Text.starts_with ["-"%char] (c :: t))
      with (if Ascii.eqb "-"%char c then Text.starts_with [] t else false).
    by destruct (Ascii.eqb_spec "-"%char c); [congruence|]. }
  rewrite Hstart, <- Hps. split; [done|]. by apply leb_zero_of_sign.
Qed.

Lemma row_numbers_in_range_witness :
  exists r, parse_line 4300 line_miss = Some (Ok r) /\
    0 <= trade_index r /\ 0 <= total_trades r /\
    Float64.is_nan (capital_usd r) = false /\ negative (capital_usd r) = false /\
    Float64.leb Float64.zero (capital_usd r) = true /\
    Float64.is_nan (pnl_usd r) = false /\
    exists m pnl,
      Regex.search line_re (list_ascii_of_string line_miss) = Some m /\
      m !! 4%nat = Some pnl /\
      negative (pnl_usd r) = Text.starts_with ["-"%char] pnl /\
      (if Text.starts_with ["-"%char] pnl
       then Float64.leb (pnl_usd r) Float64.zero = true
       else Float64.leb Float64.zero (pnl_usd r) = true).
Proof.
  eexists. split; [vm_compute; reflexivity|].
  apply (row_numbers_in_range 4300 line_miss). vm_compute. reflexivity.
Defined.

(** ** The reading loop, line after line *)

Lemma parse_log_acc d lines : forall acc,
  parse_log d lines acc = let? new := parse_log d lines [] in Ok (acc ++ new).
Proof.
  induction lines as [|line lines IH]; intros acc; simpl.
  - by rewrite app_nil_r.
  - destruct (parse_line d line) as [[r|e]|]; [|done|by apply IH].
    rewrite (IH (acc ++ [r])), (IH [r]).
    destruct (parse_log d lines []) as [new|e]; simpl; [|done].
    by rewrite <- app_assoc.
Qed.

Lemma parse_log_app d l1 l2 acc :
  parse_log d (l1 ++ l2) acc = let? rows := parse_log d l1 acc in parse_log d l2 rows.
Proof.
  revert acc. induction l1 as [|line l1 IH]; intros acc; simpl; [done|].
  destruct (parse_line d line) as [[r|e]|]; auto.
Qed.


(** X5.  The reading loop works line after line: the rows of two
    stretches of lines read in a row are the rows of the first followed by
    the rows of the second; when a line of the first makes a conversion
    raise, the second is not read; and the only exception the loop raises
    is [ValueError]. *)
Theorem reading_is_incremental (d : nat) (l1 l2 : list string) :
  parse_log d (l1 ++ l2) [] =
    (let? r1 := parse_log d l1 [] in
     let? r2 := parse_log d l2 [] in
     Ok (r1 ++ r2)) /\
  (forall e, parse_log d l1 [] = Raise e ->
             e = ValueError /\ parse_log d (l1 ++ l2) [] = Raise ValueError).
Proof.
  assert (Hraise : forall lines acc e, parse_log d lines acc = Raise e -> e = ValueError).
  { induction lines as [|l lines IH]; intros acc e H; simpl in H; [done|].
    destruct (parse_line d l) as [[r|e']|] eqn:Hl; eauto.
    injection H as <-. by eapply parse_line_raises. }
  assert (Happ : parse_log d (l1 ++ l2) [] =
            (let? r1 := parse_log d l1 [] in
             let? r2 := parse_log d l2 [] in
             Ok (r1 ++ r2))).
  { rewrite parse_log_app. destruct (parse_log d l1 []) as [r1|e]; simpl; [|done].
    apply parse_log_acc. }
  split; [exact Happ|]. intros e He.
  pose proof (Hraise _ _ _ He) as ->. split; [done|]. by rewrite Happ, He.
Qed.

(** X6.  A log with a line that matches but holds a token that does not
    convert makes the run raise before either table is opened:
    [ValueError], or the [FileExistsError] of [os.makedirs] when the path
    of the output directory is a regular file.  The two table paths are as
    they were and nothing is printed, whatever the other lines are. *)
Theorem unconvertible_token_aborts_before_writing (d : nat)
    (render : list cell -> string) (w : world) (content line : string) (e : exn) :
  fs w !! log_file = Some (File content) ->
  line ∈ Text.readlines content ->
  parse_line d line = Some (Raise e) ->
  exists w',
    main d render w =
      (Raise match fs w !! out_dir with
             | Some (File _) => FileExistsError
             | _ => ValueError
             end, w') /\
    fs w' !! per_trade_path = fs w !! per_trade_path /\
    fs w' !! summary_path = fs w !! summary_path /\
    stdout w' = stdout w.
Proof.
  intros Hlog Hin Hline.
  apply (main_raises_while_reading d render w content ValueError Hlog).
  by apply (parse_log_raises d _ [] line e).
Qed.

Lemma unconvertible_token_aborts_before_writing_witness :
  let w := world_of [line_hit; line_two_dots; line_miss] in
  let v := {| fs := <[out_dir := File ""]> (fs w); stdout := [] |} in
  (exists w',
     main 4300 show_row w = (Raise ValueError, w') /\
     fs w' !! per_trade_path = fs w !! per_trade_path /\
     fs w' !! summary_path = fs w !! summary_path /\
     stdout w' = stdout w) /\
  (exists v',
     main 4300 show_row v = (Raise FileExistsError, v') /\
     fs v' !! per_trade_path = fs v !! per_trade_path /\
     fs v' !! summary_path = fs v !! summary_path /\
     stdout v' = stdout v).
Proof.
  intros w v. split.
  - apply (unconvertible_token_aborts_before_writing 4300 show_row w
             (log_of [line_hit; line_two_dots; line_miss])
             (line_two_dots +:+ String Text.nl "") ValueError).
    + vm_compute. reflexivity.
    + vm_compute. apply elem_of_cons. right. apply elem_of_cons. by left.
    + vm_compute. reflexivity.
  - apply (unconvertible_token_aborts_before_writing 4300 show_row v
             (log_of [line_hit; line_two_dots; line_miss])
             (line_two_dots +:+ String Text.nl "") ValueError).
    + vm_compute. reflexivity.
    + vm_compute. apply elem_of_cons. right. apply elem_of_cons. by left.
    + vm_compute. reflexivity.
Defined.

(** ** What a run touches *)

Section Frame.
Context (d : nat) (render : list cell -> string).

Lemma modifies_only_bind {A B} paths (m : io A) (k : A -> io B) :
  modifies_only paths m -> (forall a, modifies_only paths (k a)) ->
  modifies_only paths (io_bind m k).
Proof.
  intros Hm Hk w p Hp. unfold io_bind. specialize (Hm w p Hp).
  destruct (m w) as [[a|e] w1]; simpl in *; [|done].
  by rewrite (Hk a w1 p Hp).
Qed.

Lemma modifies_only_lift {A} paths (o : outcome A) : modifies_only paths (io_lift o).
Proof. by intros w p _. Qed.

Lemma modifies_only_ret {A} paths (a : A) : modifies_only paths (io_ret a).
Proof. by intros w p _. Qed.

Lemma modifies_only_makedirs paths path :
  path ∈ paths -> modifies_only paths (makedirs path).
Proof.
  intros Hin w p Hp. unfold makedirs.
  destruct (fs w !! path) as [[|?]|]; simpl; try done.
  apply lookup_insert_ne. by intros ->.
Qed.

Lemma modifies_only_read_file paths path : modifies_only paths (read_file path).
Proof. intros w p _. unfold read_file. by destruct (fs w !! path) as [[|?]|]. Qed.

Lemma modifies_only_open_write paths path :
  path ∈ paths -> modifies_only paths (open_write path).
Proof.
  intros Hin w p Hp. unfold open_write.
  destruct (fs w !! path) as [[|?]|]; simpl; try done;
    apply lookup_insert_ne; by intros ->.
Qed.

Lemma modifies_only_writerow paths path row :
  path ∈ paths -> modifies_only paths (writerow render path row).
Proof.
  intros Hin w p Hp. unfold writerow.
  destruct (fs w !! path) as [[|?]|]; simpl; try done.
  apply lookup_insert_ne. by intros ->.
Qed.

Lemma modifies_only_writerows paths path rows :
  path ∈ paths -> modifies_only paths (writerows render path rows).
Proof.
  intros Hin. induction rows as [|row rows IH]; simpl.
  - apply modifies_only_ret.
  - apply modifies_only_bind; auto using modifies_only_writerow.
Qed.

Lemma modifies_only_write_summary paths path a syms :
  path ∈ paths -> modifies_only paths (write_summary render path a syms).
Proof.
  intros Hin. induction syms as [|sym syms IH]; simpl.
  - apply modifies_only_ret.
  - apply modifies_only_bind; [apply modifies_only_lift|]. intros row.
    apply modifies_only_bind; auto using modifies_only_writerow.
Qed.

Lemma modifies_only_print paths line : modifies_only paths (print line).
Proof. by intros w p _. Qed.

Lemma modifies_only_main :
  modifies_only [out_dir; per_trade_path; summary_path] (main d render).
Proof.
  assert (H1 : out_dir ∈ [out_dir; per_trade_path; summary_path])
    by (rewrite !elem_of_cons; auto).
  assert (H2 : per_trade_path ∈ [out_dir; per_trade_path; summary_path])
    by (rewrite !elem_of_cons; auto).
  assert (H3 : summary_path ∈ [out_dir; per_trade_path; summary_path])
    by (rewrite !elem_of_cons; auto).
  unfold main.
  repeat (apply modifies_only_bind; [|intros ?]);
    auto using modifies_only_makedirs, modifies_only_read_file, modifies_only_lift,
      modifies_only_open_write, modifies_only_writerow, modifies_only_writerows,
      modifies_only_write_summary, modifies_only_print.
Qed.

Lemma silent_bind {A B} (m : io A) (k : A -> io B) :
  silent m -> (forall a, silent (k a)) -> silent (io_bind m k).
Proof.
  intros Hm Hk w. unfold io_bind. specialize (Hm w).
  destruct (m w) as [[a|e] w1]; simpl in *; [|done]. by rewrite (Hk a w1).
Qed.

Lemma quiet_bind_silent {A B} (m : io A) (k : A -> io B) :
  silent m -> (forall a, quiet_on_failure (k a)) -> quiet_on_failure (io_bind m k).
Proof.
  intros Hm Hk w e w' H. unfold io_bind in H. specialize (Hm w).
  destruct (m w) as [[a|e1] w1]; simpl in *.
  - rewrite <- Hm. by eapply Hk.
  - by simplify_eq.
Qed.

Lemma silent_makedirs path : silent (makedirs path).
Proof. intros w. unfold makedirs. by destruct (fs w !! path) as [[|?]|]. Qed.

Lemma silent_read_file path : silent (read_file path).
Proof. intros w. unfold read_file. by destruct (fs w !! path) as [[|?]|]. Qed.

Lemma silent_open_write path : silent (open_write path).
Proof. intros w. unfold open_write. by destruct (fs w !! path) as [[|?]|]. Qed.

Lemma silent_writerow path row : silent (writerow render path row).
Proof. intros w. unfold writerow. by destruct (fs w !! path) as [[|?]|]. Qed.

Lemma silent_writerows path rows : silent (writerows render path rows).
Proof.
  induction rows as [|row rows IH]; simpl; [done|].
  apply silent_bind; auto using silent_writerow.
Qed.

Lemma silent_write_summary path a syms : silent (write_summary render path a syms).
Proof.
  induction syms as [|sym syms IH]; simpl; [done|].
  apply silent_bind; [done|]. intros row.
  apply silent_bind; auto using silent_writerow.
Qed.

Lemma quiet_main : quiet_on_failure (main d render).
Proof.
  unfold main.
  repeat (apply quiet_bind_silent;
          [by auto using silent_makedirs, silent_read_file, silent_open_write,
                silent_writerow, silent_writerows, silent_write_summary
          |intros ?]).
  intros w e w' H. unfold io_bind, print in H. discriminate H.
Qed.

End Frame.

(** X7.  Whether it returns or raises, a run changes nothing outside the
    output directory entry and the two table paths: every other path,
    the log among them, holds after the run what it held before. *)
Theorem run_leaves_other_paths (d : nat) (render : list cell -> string)
    (w : world) (p : string) :
  p <> out_dir -> p <> per_trade_path -> p <> summary_path ->
  fs (snd (main d render w)) !! p = fs w !! p.
Proof.
  intros H1 H2 H3. apply modifies_only_main.
  rewrite !elem_of_cons, elem_of_nil. tauto.
Qed.

Lemma run_leaves_other_paths_witness :
  fs (snd (main 4300 show_row (world_of [line_hit; line_miss]))) !! log_file =
    fs (world_of [line_hit; line_miss]) !! log_file /\
  fs (snd (main 4300 show_row (world_of [line_hit; line_two_dots]))) !! log_file =
    fs (world_of [line_hit; line_two_dots]) !! log_file.
Proof.
  split; apply (run_leaves_other_paths 4300 show_row); vm_compute; discriminate.
Defined.

(** X8.  A run that raises, at whatever step, has printed nothing: the
    two paths are printed only after both tables are written. *)
Theorem failed_run_prints_nothing (d : nat) (render : list cell -> string)
    (w w' : world) (e : exn) :
  main d render w = (Raise e, w') -> stdout w' = stdout w.
Proof. apply quiet_main. Qed.

Lemma failed_run_prints_nothing_witness :
  stdout (snd (main 4300 show_row (world_of [line_hit; line_two_dots]))) =
  stdout (world_of [line_hit; line_two_dots]).
Proof.
  apply (failed_run_prints_nothing 4300 show_row _ _ ValueError).
  vm_compute. reflexivity.
Defined.

(** ** When a run returns, and what it leaves *)

Section Outcome.
Context (d : nat) (render : list cell -> string).

Lemma makedirs_ok w :
  (forall c, fs w !! out_dir <> Some (File c)) ->
  makedirs out_dir w =
  (Ok tt, {| fs := <[out_dir := Dir]> (fs w); stdout := stdout w |}).
Proof.
  intros Hdir. unfold makedirs.
  destruct (fs w !! out_dir) as [[|c]|] eqn:Hd; [|by destruct (Hdir c)|done].
  destruct w as [f o]. simpl in *. by rewrite insert_id.
Qed.

Lemma open_write_ok path w :
  fs w !! path <> Some Dir ->
  open_write path w =
  (Ok tt, {| fs := <[path := File ""]> (fs w); stdout := stdout w |}).
Proof. intros H. unfold open_write. by destruct (fs w !! path) as [[|?]|]. Qed.

(** The conditions under which the run returns, and the world it leaves. *)
Lemma main_succeeds w content rows srows :
  (forall c, fs w !! out_dir <> Some (File c)) ->
  fs w !! log_file = Some (File content) ->
  parse_log d (Text.readlines content) [] = Ok rows ->
  fs w !! per_trade_path <> Some Dir ->
  fs w !! summary_path <> Some Dir ->
  summary_rows (aggregate rows) (sorted_keys (aggregate rows)) = Ok srows ->
  main d render w = (Ok tt, world_after render w rows srows).
Proof.
  destruct paths_distinct as (Hps & Hol & Hop & Hos & Hlp & Hls).
  intros Hdir Hlog Hparse Hpt Hsm Hsum. unfold main, io_bind.
  rewrite (makedirs_ok w Hdir). unfold read_file. cbn [fs stdout].
  rewrite lookup_insert_ne, Hlog by done. unfold io_lift. rewrite Hparse.
  rewrite open_write_ok by (cbn [fs]; by rewrite lookup_insert_ne).
  rewrite (writerow_file _ _ _ _ "") by (cbn [fs]; by rewrite lookup_insert_eq).
  rewrite (writerows_file _ _ _ _ ("" +:+ render per_trade_header))
    by (cbn [fs]; by rewrite lookup_insert_eq).
  cbn [fs stdout]. rewrite !insert_insert_eq.
  rewrite open_write_ok by (cbn [fs]; by rewrite !lookup_insert_ne).
  rewrite (writerow_file _ _ _ _ "") by (cbn [fs]; by rewrite lookup_insert_eq).
  cbn [fs stdout]. rewrite !insert_insert_eq.
  match goal with |- context [write_summary _ _ ?a ?syms ?w2] =>
    pose proof (write_summary_file render summary_path a syms w2
                  ("" +:+ render summary_header)) as Hws end.
  cbn [fs stdout] in Hws. rewrite lookup_insert_eq in Hws. specialize (Hws eq_refl).
  rewrite Hsum in Hws. rewrite Hws. unfold print. cbn [fs stdout].
  rewrite insert_insert_eq, <- app_assoc. reflexivity.
Qed.

(** What the paths must be for the run to return. *)
Lemma main_returns_paths w w' :
  main d render w = (Ok tt, w') ->
  (forall c, fs w !! out_dir <> Some (File c)) /\
  fs w !! per_trade_path <> Some Dir /\ fs w !! summary_path <> Some Dir.
Proof.
  destruct paths_distinct as (Hps & Hol & Hop & Hos & Hlp & Hls).
  intros Hmain.
  assert (Hdir : forall c, fs w !! out_dir <> Some (File c)).
  { intros c Hc. unfold main, io_bind, makedirs in Hmain. by rewrite Hc in Hmain. }
  split; [done|].
  unfold main, io_bind in Hmain. rewrite (makedirs_ok w Hdir) in Hmain.
  destruct (read_file log_file _) as [[content|?] w1] eqn:Hread; [|done].
  assert (w1 = {| fs := <[out_dir := Dir]> (fs w); stdout := stdout w |}) as ->.
  { unfold read_file in Hread. by destruct (_ !! log_file) as [[|?]|]; simplify_eq. }
  unfold io_lift in Hmain.
  destruct (parse_log d (Text.readlines content) []) as [rows|?]; [|done].
  assert (Hpt : fs w !! per_trade_path <> Some Dir).
  { intros Hc. unfold open_write at 1 in Hmain. cbn [fs] in Hmain.
    by rewrite lookup_insert_ne, Hc in Hmain. }
  split; [done|]. intros Hc.
  rewrite open_write_ok in Hmain by (cbn [fs]; by rewrite lookup_insert_ne).
  rewrite (writerow_file _ _ _ _ "") in Hmain by (cbn [fs]; by rewrite lookup_insert_eq).
  rewrite (writerows_file _ _ _ _ ("" +:+ render per_trade_header)) in Hmain
    by (cbn [fs]; by rewrite lookup_insert_eq).
  unfold open_write in Hmain. cbn [fs stdout] in Hmain.
  by rewrite !lookup_insert_ne, Hc in Hmain.
Qed.

Lemma main_result w w' :
  main d render w = (Ok tt, w') ->
  exists srows,
    summary_rows (aggregate (run_rows d w)) (sorted_keys (aggregate (run_rows d w)))
      = Ok srows /\
    w' = world_after render w (run_rows d w) srows.
Proof.
  intros Hmain.
  destruct (main_returns_paths w w' Hmain) as (Hdir & Hpt & Hsm).
  destruct (main_returns d render w w' Hmain)
    as (content & srows & Hlog & Hparse & Hsum & _).
  exists srows. split; [done|].
  assert (Hlines : log_lines w = Text.readlines content)
    by (unfold log_lines; by rewrite Hlog).
  rewrite Hlines in Hparse.
  pose proof (main_succeeds w content _ srows Hdir Hlog Hparse Hpt Hsm Hsum) as H.
  rewrite Hmain in H. by injection H.
Qed.

End Outcome.

(** X9.  The run returns exactly when the output directory path is not a
    file, the log is a file, every matching line converts, neither table
    path is a directory and the summary can be computed; the world it
    then leaves is the initial one with the output directory, the two
    tables written from scratch and the two paths printed, and nothing
    else changed. *)
Theorem run_returns_iff (d : nat) (render : list cell -> string) (w : world) :
  let rows := run_rows d w in
  let a := aggregate rows in
  ((exists w', main d render w = (Ok tt, w')) <->
   (forall c, fs w !! out_dir <> Some (File c)) /\
   (exists content, fs w !! log_file = Some (File content)) /\
   (exists rows', parse_log d (log_lines w) [] = Ok rows') /\
   fs w !! per_trade_path <> Some Dir /\
   fs w !! summary_path <> Some Dir /\
   (exists srows, summary_rows a (sorted_keys a) = Ok srows)) /\
  (forall w', main d render w = (Ok tt, w') ->
     exists srows,
       summary_rows a (sorted_keys a) = Ok srows /\
       w' = world_after render w rows srows).
Proof.
  intros rows a. split; [split|].
  - intros [w' Hmain].
    destruct (main_returns_paths d render w w' Hmain) as (Hdir & Hpt & Hsm).
    destruct (main_returns d render w w' Hmain)
      as (content & srows' & Hlog & Hparse & _).
    destruct (main_result d render w w' Hmain) as (srows & Hsum & _).
    split; [done|]. split; [by eexists|]. split; [by eexists|].
    split; [done|]. split; [done|]. by exists srows.
  - intros (Hdir & [content Hlog] & [rows' Hparse] & Hpt & Hsm & [srows Hsum]).
    assert (Hrows : rows = rows').
    { subst rows. unfold run_rows. by rewrite Hparse. }
    assert (Hlines : log_lines w = Text.readlines content)
      by (unfold log_lines; by rewrite Hlog).
    rewrite Hlines, <- Hrows in Hparse. eexists.
    by apply (main_succeeds d render w content rows srows).
  - intros w' Hmain. by apply main_result.
Qed.

(** X10.  Running the script again on what the first run left returns
    again and leaves the same file system: both tables are rewritten with
    the same text (only the two paths are printed once more). *)
Theorem rerun_is_idempotent (d : nat) (render : list cell -> string) (w w1 : world) :
  main d render w = (Ok tt, w1) ->
  exists w2,
    main d render w1 = (Ok tt, w2) /\
    fs w2 = fs w1 /\
    stdout w2 = stdout w1 ++ [per_trade_path; summary_path].
Proof.
  destruct paths_distinct as (Hps & Hol & Hop & Hos & Hlp & Hls).
  intros Hmain.
  destruct (main_returns d render w w1 Hmain)
    as (content & srows' & Hlog & Hparse & _).
  destruct (main_result d render w w1 Hmain) as (srows & Hsum & ->).
  assert (Hlines : log_lines w = Text.readlines content)
    by (unfold log_lines; by rewrite Hlog).
  rewrite Hlines in Hparse.
  set (w1 := world_after render w (run_rows d w) srows).
  assert (Hmain1 : main d render w1 =
                   (Ok tt, world_after render w1 (run_rows d w) srows)).
  { apply (main_succeeds d render w1 content); subst w1; unfold world_after; cbn [fs].
    - intros c. by rewrite !lookup_insert_ne, lookup_insert_eq by done.
    - by rewrite !lookup_insert_ne by done.
    - done.
    - by rewrite lookup_insert_ne, lookup_insert_eq by done.
    - by rewrite lookup_insert_eq.
    - done. }
  eexists. split; [exact Hmain1|]. split; [|done].
  subst w1. unfold world_after. cbn [fs]. apply map_eq. intros p.
  rewrite !lookup_insert. repeat case_decide; done.
Qed.

Lemma rerun_is_idempotent_witness :
  let w := world_of [line_hit; line_indented; line_miss] in
  let w1 := snd (main 4300 show_row w) in
  exists w2,
    main 4300 show_row w1 = (Ok tt, w2) /\
    fs w2 = fs w1 /\
    stdout w2 = stdout w1 ++ [per_trade_path; summary_path].
Proof.
  intros w w1. apply (rerun_is_idempotent 4300 show_row w w1).
  vm_compute. reflexivity.
Defined.

(** X11.  The two tables depend on the log alone: two runs that return on
    worlds with the same log leave the same text in both tables, whatever
    else the worlds hold and whatever the tables held before. *)
Theorem tables_depend_on_log_only (d : nat) (render : list cell -> string)
    (wa wa' wb wb' : world) :
  main d render wa = (Ok tt, wa') ->
  main d render wb = (Ok tt, wb') ->
  fs wa !! log_file = fs wb !! log_file ->
  fs wa' !! per_trade_path = fs wb' !! per_trade_path /\
  fs wa' !! summary_path = fs wb' !! summary_path.
Proof.
  intros Ha Hb Hlog.
  assert (Hrows : run_rows d wa = run_rows d wb).
  { unfold run_rows, log_lines. by rewrite Hlog. }
  destruct (main_returns d render wa wa' Ha) as (ca & sa & _ & _ & Hsa & Hpa & Hma & _).
  destruct (main_returns d render wb wb' Hb) as (cb & sb & _ & _ & Hsb & Hpb & Hmb & _).
  rewrite Hrows in Hsa, Hpa. rewrite Hsa in Hsb. injection Hsb as <-.
  split; congruence.
Qed.

Lemma tables_depend_on_log_only_witness :
  let wa := world_of [line_hit; line_miss] in
  let wb := snd (main 4300 show_row (world_of [line_hit; line_miss])) in
  let wa' := snd (main 4300 show_row wa) in
  let wb' := snd (main 4300 show_row wb) in
  fs wa' !! per_trade_path = fs wb' !! per_trade_path /\
  fs wa' !! summary_path = fs wb' !! summary_path.
Proof.
  intros wa wb wa' wb'.
  apply (tables_depend_on_log_only 4300 show_row wa wa' wb wb');
    vm_compute; reflexivity.
Defined.

Lemma run_returns_iff_witness :
  let w := world_of [line_hit; line_miss] in
  let rows := run_rows 4300 w in
  let a := aggregate rows in
  exists srows,
    summary_rows a (sorted_keys a) = Ok srows /\
    snd (main 4300 show_row w) = world_after show_row w rows srows.
Proof.
  intros w rows a.
  apply (run_returns_iff 4300 show_row w). vm_compute. reflexivity.
Defined.

(** ** The dictionaries of the aggregation *)

Lemma running_max_is_Some l : is_Some (running_max l) <-> l <> [].
Proof.
  destruct l as [|p l] using rev_ind; [by split; [intros [? [=]]|]|].
  rewrite running_max_snoc. split; [by destruct l|by eexists].
Qed.

Lemma running_min_is_Some l : is_Some (running_min l) <-> l <> [].
Proof.
  destruct l as [|p l] using rev_ind; [by split; [intros [? [=]]|]|].
  rewrite running_min_snoc. split; [by destruct l|by eexists].
Qed.

Lemma running_sum_is_Some l : is_Some (running_sum l) <-> l <> [].
Proof. destruct l; simpl; split; try done; by intros [? [=]]. Qed.

Lemma pnls_of_nil sym rows : pnls_of sym rows = [] <-> rows_of sym rows = [].
Proof. unfold pnls_of. by destruct (rows_of sym rows). Qed.

Lemma of_int_cases z :
  (exists f, Float64.of_int z = Ok f) \/ Float64.of_int z = Raise OverflowError.
Proof. unfold Float64.of_int. destruct (Float64.of_Z z); eauto. Qed.

Lemma win_rate_cases h t :
  (exists f, win_rate h t = Ok f) \/ win_rate h t = Raise OverflowError.
Proof.
  unfold win_rate. destruct (t =? 0); [by eauto|].
  destruct (of_int_cases h) as [[hf ->]| ->]; [|by right].
  destruct (of_int_cases t) as [[tf ->]| ->]; [|by right].
  left. by eexists.
Qed.

Lemma average_cases s t :
  (exists f, average s t = Ok f) \/ average s t = Raise OverflowError.
Proof.
  unfold average. destruct (t =? 0); [by eauto|].
  destruct (of_int_cases t) as [[tf ->]| ->]; [|by right].
  left. by eexists.
Qed.

(** X12.  The six dictionaries keep the same keys: after any rows, the
    sums, the maxima and the minima have exactly the keys of the counts,
    and the hits and the misses have, between them, those keys too; so
    the plain lookups of the summary loop never miss. *)
Theorem dictionaries_share_keys (rows : list trade) :
  let a := aggregate rows in
  dom (sum_p a) = dom (cnt a) /\
  dom (max_p a) = dom (cnt a) /\
  dom (min_p a) = dom (cnt a) /\
  dom (hits a) ∪ dom (miss a) = dom (cnt a) /\
  forall sym, sym ∈ sorted_keys a ->
    is_Some (max_p a !! sym) /\ is_Some (min_p a !! sym) /\
    summary_row a sym <> Raise KeyError.
Proof.
  intros a. subst a.
  assert (Hmax : forall sym, is_Some (max_p (aggregate rows) !! sym) <->
                             rows_of sym rows <> []).
  { intros sym. by rewrite max_p_aggregate, running_max_is_Some, pnls_of_nil. }
  assert (Hmin : forall sym, is_Some (min_p (aggregate rows) !! sym) <->
                             rows_of sym rows <> []).
  { intros sym. by rewrite min_p_aggregate, running_min_is_Some, pnls_of_nil. }
  assert (Hcnt : forall sym, is_Some (cnt (aggregate rows) !! sym) <->
                             rows_of sym rows <> []).
  { intros sym. by rewrite cnt_aggregate, tally_is_Some. }
  split; [|split; [|split; [|split]]].
  - apply set_eq. intros sym.
    by rewrite !elem_of_dom, Hcnt, sum_p_aggregate, running_sum_is_Some, pnls_of_nil.
  - apply set_eq. intros sym. by rewrite !elem_of_dom, Hcnt, Hmax.
  - apply set_eq. intros sym. by rewrite !elem_of_dom, Hcnt, Hmin.
  - apply set_eq. intros sym.
    rewrite elem_of_union, !elem_of_dom, Hcnt, hits_aggregate, miss_aggregate,
      !tally_is_Some.
    pose proof (length_hits_misses (rows_of sym rows)) as Hlen.
    destruct (rows_of sym rows) as [|r l] eqn:Hl; [by intuition|].
    split; [done|]. intros _.
    destruct (filter (fun r => is_hit r = true) (r :: l)); [right|by left].
    destruct (filter (fun r => is_hit r = false) (r :: l)); [|done].
    simpl in Hlen. lia.
  - intros sym Hsym. apply rows_of_nonempty in Hsym.
    pose proof (proj2 (Hmax sym) Hsym) as [mx Hmx].
    pose proof (proj2 (Hmin sym) Hsym) as [mn Hmn].
    split; [by eexists|]. split; [by eexists|].
    unfold summary_row, get_item. rewrite Hmx, Hmn.
    destruct (win_rate_cases (get_int (hits (aggregate rows)) sym)
                (get_int (cnt (aggregate rows)) sym)) as [[wr ->]| ->]; [|done].
    destruct (average_cases (get_float (sum_p (aggregate rows)) sym)
                (get_int (cnt (aggregate rows)) sym)) as [[avg ->]| ->]; done.
Qed.

Lemma dictionaries_share_keys_witness :
  let a := aggregate rows_in_order in
  is_Some (max_p a !! "A") /\ is_Some (min_p a !! "A") /\
  summary_row a "A" <> Raise KeyError.
Proof.
  intros a. apply (dictionaries_share_keys rows_in_order). vm_compute. constructor.
Defined.

(** ** The totals *)

Lemma indicator_sum (syms : list string) (x : string) :
  NoDup syms -> x ∈ syms ->
  fold_right Z.add 0 (map (fun s => if decide (x = s) then 1 else 0) syms) = 1.
Proof.
  induction 1 as [|s syms Hs Hnd IH]; intros Hx; [by apply elem_of_nil in Hx|].
  simpl. apply elem_of_cons in Hx as [->|Hx].
  - rewrite decide_True by done.
    assert (H0 : fold_right Z.add 0
                   (map (fun s0 => if decide (s = s0) then 1 else 0) syms) = 0).
    { clear IH Hnd. induction syms as [|t syms IH]; [done|]. simpl.
      rewrite decide_False by (intros ->; apply Hs; by left).
      rewrite IH; [done|]. intros Hin. apply Hs. by right. }
    lia.
  - rewrite decide_False by (intros ->; done). by rewrite IH.
Qed.

Lemma totals_add_up_gen (syms : list string) (rows : list trade) :
  NoDup syms -> (forall r, r ∈ rows -> symbol r ∈ syms) ->
  fold_right Z.add 0 (map (fun s => Z.of_nat (length (rows_of s rows))) syms) =
  Z.of_nat (length rows).
Proof.
  intros Hnd. induction rows as [|r rows IH]; intros Hin.
  - simpl. clear. induction syms; [done|]. simpl. lia.
  - assert (Hstep : forall l,
      fold_right Z.add 0 (map (fun s => Z.of_nat (length (rows_of s (r :: rows)))) l) =
      fold_right Z.add 0 (map (fun s => Z.of_nat (length (rows_of s rows))) l)
      + fold_right Z.add 0 (map (fun s => if decide (symbol r = s) then 1 else 0) l)).
    { induction l as [|s l IHl]; [done|]. simpl. rewrite IHl.
      unfold rows_of at 1. rewrite filter_cons. fold (rows_of s rows).
      case_decide; simpl length; lia. }
    rewrite Hstep, IH, indicator_sum; [simpl length; lia|done| |].
    + apply Hin. by left.
    + intros r' Hr'. apply Hin. by right.
Qed.

(** X13.  No row is lost or counted twice: the totals of the keys of the
    summary add up to the number of rows read. *)
Theorem totals_add_up (rows : list trade) :
  let a := aggregate rows in
  fold_right Z.add 0 (map (get_int (cnt a)) (sorted_keys a)) = Z.of_nat (length rows).
Proof.
  intros a. subst a.
  rewrite <- (totals_add_up_gen (sorted_keys (aggregate rows)) rows).
  - f_equal. apply map_ext. intros sym.
    apply (get_int_tally _ _ _ (cnt_aggregate rows sym)).
  - apply NoDup_sorted_keys.
  - intros r Hr. apply elem_of_sorted_keys, elem_of_dom_cnt. eauto.
Qed.

(** ** One symbol at a time *)

(** X14.  The symbols are aggregated apart from one another: the six
    entries of a symbol are those of its own rows taken alone, in their
    order, so rows of other symbols, wherever they stand in between,
    change nothing for it, the sum included. *)
Theorem symbols_are_independent (rows rows' : list trade) (sym : string) :
  rows_of sym rows = rows_of sym rows' ->
  cnt (aggregate rows) !! sym = cnt (aggregate rows') !! sym /\
  hits (aggregate rows) !! sym = hits (aggregate rows') !! sym /\
  miss (aggregate rows) !! sym = miss (aggregate rows') !! sym /\
  sum_p (aggregate rows) !! sym = sum_p (aggregate rows') !! sym /\
  max_p (aggregate rows) !! sym = max_p (aggregate rows') !! sym /\
  min_p (aggregate rows) !! sym = min_p (aggregate rows') !! sym /\
  summary_row (aggregate rows) sym = summary_row (aggregate rows') sym.
Proof.
  intros H.
  assert (Hp : pnls_of sym rows = pnls_of sym rows') by (unfold pnls_of; by rewrite H).
  assert (H6 : cnt (aggregate rows) !! sym = cnt (aggregate rows') !! sym /\
               hits (aggregate rows) !! sym = hits (aggregate rows') !! sym /\
               miss (aggregate rows) !! sym = miss (aggregate rows') !! sym /\
               sum_p (aggregate rows) !! sym = sum_p (aggregate rows') !! sym /\
               max_p (aggregate rows) !! sym = max_p (aggregate rows') !! sym /\
               min_p (aggregate rows) !! sym = min_p (aggregate rows') !! sym).
  { rewrite !cnt_aggregate, !hits_aggregate, !miss_aggregate, !sum_p_aggregate,
      !max_p_aggregate, !min_p_aggregate, H, Hp. by repeat split. }
  destruct H6 as (Hc & Hh & Hm & Hs & Hx & Hn). repeat split; try done.
  unfold summary_row, get_int, get_float, get_item.
  by rewrite Hc, Hh, Hm, Hs, Hx, Hn.
Qed.

Lemma symbols_are_independent_witness :
  let rows := run_rows 4300 (world_of [line_hit; line_big; line_miss; line_one]) in
  let rows' := run_rows 4300 (world_of [line_big; line_one; line_hit; line_miss]) in
  cnt (aggregate rows) !! "AAPL" = cnt (aggregate rows') !! "AAPL" /\
  hits (aggregate rows) !! "AAPL" = hits (aggregate rows') !! "AAPL" /\
  miss (aggregate rows) !! "AAPL" = miss (aggregate rows') !! "AAPL" /\
  sum_p (aggregate rows) !! "AAPL" = sum_p (aggregate rows') !! "AAPL" /\
  max_p (aggregate rows) !! "AAPL" = max_p (aggregate rows') !! "AAPL" /\
  min_p (aggregate rows) !! "AAPL" = min_p (aggregate rows') !! "AAPL" /\
  summary_row (aggregate rows) "AAPL" = summary_row (aggregate rows') "AAPL".
Proof.
  intros rows rows'. apply (symbols_are_independent rows rows' "AAPL").
  vm_compute. reflexivity.
Defined.

(** ** Counts as floats *)

Lemma digits2_pos_bounds m :
  2 ^ (Zpos (digits2_pos m) - 1) <= Zpos m < 2 ^ Zpos (digits2_pos m).
Proof.
  induction m as [m IH|m IH|]; simpl digits2_pos.
  - rewrite Pos2Z.inj_succ.
    replace (Z.succ (Zpos (digits2_pos m)) - 1)
      with (Z.succ (Zpos (digits2_pos m) - 1)) by lia.
    rewrite !Z.pow_succ_r by lia. lia.
  - rewrite Pos2Z.inj_succ.
    replace (Z.succ (Zpos (digits2_pos m)) - 1)
      with (Z.succ (Zpos (digits2_pos m) - 1)) by lia.
    rewrite !Z.pow_succ_r by lia. lia.
  - simpl. lia.
Qed.

Lemma digits2_pos_shift m k :
  digits2_pos (Pos.iter xO m k) = (digits2_pos m + k)%positive.
Proof.
  induction k as [|k IH] using Pos.peano_ind.
  - simpl. lia.
  - rewrite Pos.iter_succ. simpl. rewrite IH. lia.
Qed.

(** A mantissa of 53 bits with an exponent in range is kept as it is. *)
Lemma binary_round_aux_exact mz ez :
  Zpos (digits2_pos mz) = 53 -> -1074 <= ez <= 971 ->
  binary_round_aux Float64.prec Float64.emax false (Zpos mz) ez loc_Exact =
  S754_finite false mz ez.
Proof.
  intros Hd He.
  assert (Hshr : shr_fexp Float64.prec Float64.emax (Zpos mz) ez loc_Exact =
                 ({| shr_m := Zpos mz; shr_r := false; shr_s := false |}, ez)).
  { unfold shr_fexp, Zdigits2. rewrite Hd.
    replace (fexp Float64.prec Float64.emax (53 + ez) - ez) with 0
      by (unfold fexp, emin, Float64.prec, Float64.emax; lia).
    reflexivity. }
  unfold binary_round_aux. rewrite Hshr.
  cbn [shr_m loc_of_shr_record round_nearest_even].
  rewrite Hshr. cbn [shr_m].
  destruct (Z.leb_spec ez (Float64.emax - Float64.prec)) as [|Hgt]; [done|].
  unfold Float64.emax, Float64.prec in Hgt. lia.
Qed.

Lemma of_Z_small m :
  Zpos m < 2 ^ 53 ->
  exists mz ez, Float64.of_Z (Zpos m) = S754_finite false mz ez.
Proof.
  intros Hm. pose proof (digits2_pos_bounds m) as [Hlo _].
  assert (Hd : Zpos (digits2_pos m) <= 53).
  { destruct (Z.le_gt_cases (Zpos (digits2_pos m)) 53) as [|Hgt]; [done|].
    assert (2 ^ 53 <= 2 ^ (Zpos (digits2_pos m) - 1)) by (apply Z.pow_le_mono_r; lia).
    lia. }
  unfold Float64.of_Z, binary_normalize, binary_round.
  assert (Hfexp : fexp Float64.prec Float64.emax (Zpos (digits2_pos m) + 0)
                  = Zpos (digits2_pos m) - 53).
  { unfold fexp, emin, Float64.prec, Float64.emax. lia. }
  rewrite Hfexp. unfold shl_align.
  destruct (Zpos (digits2_pos m) - 53 - 0) as [|k|k] eqn:Hk; [|lia|].
  - eexists _, _. apply binary_round_aux_exact; lia.
  - eexists _, _. apply binary_round_aux_exact; [|lia].
    rewrite digits2_pos_shift. lia.
Qed.

Lemma of_int_small z :
  0 <= z < 2 ^ 53 -> exists f, Float64.of_int z = Ok f.
Proof.
  intros [Hz Hlt]. unfold Float64.of_int. destruct z as [|m|m]; [by eexists| |lia].
  destruct (of_Z_small m Hlt) as (mz & ez & ->). by eexists.
Qed.

Lemma summary_row_small rows sym :
  Z.of_nat (length rows) < 2 ^ 53 -> rows_of sym rows <> [] ->
  exists row, summary_row (aggregate rows) sym = Ok row.
Proof.
  intros Hlen Hne. unfold summary_row, win_rate, average, get_item.
  rewrite (get_int_tally _ _ _ (cnt_aggregate rows sym)).
  rewrite (get_int_tally _ _ _ (hits_aggregate rows sym)).
  rewrite max_p_aggregate, min_p_aggregate.
  pose proof (length_filter (fun r => symbol r = sym) rows) as Hl. fold (rows_of sym rows) in Hl.
  pose proof (length_filter (fun r => is_hit r = true) (rows_of sym rows)) as Hh.
  destruct (of_int_small (Z.of_nat (length (filter (fun r => is_hit r = true)
                                              (rows_of sym rows))))) as [hf ->]; [lia|].
  destruct (of_int_small (Z.of_nat (length (rows_of sym rows)))) as [tf ->]; [lia|].
  destruct (proj2 (running_max_is_Some (pnls_of sym rows))) as [mx ->];
    [by rewrite pnls_of_nil|].
  destruct (proj2 (running_min_is_Some (pnls_of sym rows))) as [mn ->];
    [by rewrite pnls_of_nil|].
  destruct (_ =? 0); by eexists.
Qed.

Lemma summary_rows_all a syms :
  (forall sym, sym ∈ syms -> exists row, summary_row a sym = Ok row) ->
  exists srows, summary_rows a syms = Ok srows.
Proof.
  induction syms as [|sym syms IH]; intros H; simpl; [by eexists|].
  destruct (H sym) as [row ->]; [by left|].
  destruct IH as [srows ->]; [intros s Hs; apply H; by right|].
  by eexists.
Qed.

(** X15.  With the output directory path not a file, the log a file whose
    matching lines all convert, and neither table path a directory, a run
    over fewer than 2^53 rows returns: the conversions of the counts to
    floats for the win rate and the average cannot overflow, and no other
    step of the summary can raise. *)
Theorem run_returns_on_convertible_log (d : nat) (render : list cell -> string)
    (w : world) (content : string) (rows : list trade) :
  (forall c, fs w !! out_dir <> Some (File c)) ->
  fs w !! log_file = Some (File content) ->
  parse_log d (Text.readlines content) [] = Ok rows ->
  fs w !! per_trade_path <> Some Dir ->
  fs w !! summary_path <> Some Dir ->
  Z.of_nat (length rows) < 2 ^ 53 ->
  exists srows,
    summary_rows (aggregate rows) (sorted_keys (aggregate rows)) = Ok srows /\
    main d render w = (Ok tt, world_after render w rows srows).
Proof.
  intros Hdir Hlog Hparse Hpt Hsm Hlen.
  destruct (summary_rows_all (aggregate rows) (sorted_keys (aggregate rows)))
    as [srows Hsum].
  { intros sym Hsym. apply summary_row_small; [done|]. by apply rows_of_nonempty. }
  exists srows. split; [done|]. by apply (main_succeeds d render w content).
Qed.

Lemma run_returns_on_convertible_log_witness :
  let w := world_of [line_hit; line_no_trades; line_miss] in
  let rows := run_rows 4300 w in
  exists srows,
    summary_rows (aggregate rows) (sorted_keys (aggregate rows)) = Ok srows /\
    main 4300 show_row w = (Ok tt, world_after show_row w rows srows).
Proof.
  intros w rows.
  apply (run_returns_on_convertible_log 4300 show_row w
           (log_of [line_hit; line_no_trades; line_miss]) rows).
  - intros c. vm_compute. discriminate.
  - vm_compute. reflexivity.
  - vm_compute. reflexivity.
  - vm_compute. discriminate.
  - vm_compute. discriminate.
  - vm_compute. reflexivity.
Defined.

(** X16.  For the rows of a log the minimum of a symbol is never above
    its maximum, and a symbol with a single row has that row's profit as
    both. *)
Theorem minimum_below_maximum (d : nat) (w : world) (sym : string) (mx mn : float) :
  let rows := run_rows d w in
  max_p (aggregate rows) !! sym = Some mx ->
  min_p (aggregate rows) !! sym = Some mn ->
  Float64.leb mn mx = true /\
  (forall r, rows_of sym rows = [r] -> mx = pnl_usd r /\ mn = pnl_usd r).
Proof.
  intros rows Hmx Hmn.
  assert (Hnan : Forall (fun r => Float64.is_nan (pnl_usd r) = false) rows).
  { subst rows. unfold run_rows.
    destruct (parse_log d (log_lines w) []) as [rows|e] eqn:Hparse; [|constructor].
    by eapply parse_log_not_nan. }
  rewrite max_p_aggregate in Hmx. rewrite min_p_aggregate in Hmn.
  split.
  - pose proof (running_max_greatest _ (pnls_of_not_nan sym rows Hnan)) as Hg.
    pose proof (running_min_least _ (pnls_of_not_nan sym rows Hnan)) as Hl.
    rewrite Hmx in Hg. rewrite Hmn in Hl.
    destruct Hg as [_ Hg], Hl as [Hin _].
    rewrite Forall_forall in Hg. by apply Hg.
  - intros r Hr. unfold pnls_of in Hmx, Hmn. rewrite Hr in Hmx, Hmn.
    cbv [running_max running_min fold_left map] in Hmx, Hmn. by simplify_eq.
Qed.

Lemma minimum_below_maximum_witness :
  let w := world_of [line_hit; line_miss; line_big] in
  let rows := run_rows 4300 w in
  Float64.leb (Float64.of_Z (-5)) (Float64.of_ratio false 25 2) = true /\
  (forall r, rows_of "AAPL" rows = [r] ->
             Float64.of_ratio false 25 2 = pnl_usd r /\ Float64.of_Z (-5) = pnl_usd r).
Proof.
  intros w rows.
  apply (minimum_below_maximum 4300 w "AAPL"); vm_compute; reflexivity.
Defined.

(** ** The lines of the log *)


(** X17.  How the log is cut into lines: put end to end, the lines are
    the text of the file with CR LF and lone CR turned into LF, nothing
    lost and nothing added; no line is empty, none holds a CR, and a line
    holds a LF only as its last character; a file with CR LF line ends is
    read as the same lines as the file with LF line ends. *)
Theorem lines_of_the_log (content : string) :
  let text := Text.translate_newlines (list_ascii_of_string content) in
  concat (map list_ascii_of_string (Text.readlines content)) = text /\
  Forall (fun line => exists body,
            (Text.nl ∉ body) /\ (Text.cr ∉ body) /\
            (list_ascii_of_string line = body ++ [Text.nl] \/
             (list_ascii_of_string line = body /\ body <> [])))
         (Text.readlines content) /\
  Text.readlines (string_of_list_ascii text) = Text.readlines content.
Proof.
  intros text. unfold Text.readlines. fold text.
  destruct (split_lines_spec text []) as [Hcat Hall]; [by apply not_elem_of_nil|].
  simpl in Hcat.
  assert (Hmap : map list_ascii_of_string
                   (map string_of_list_ascii (Text.split_lines [] text)) =
                 Text.split_lines [] text).
  { rewrite map_map. rewrite <- (map_id (Text.split_lines [] text)) at 2.
    apply map_ext. apply list_ascii_of_string_of_list_ascii. }
  split; [by rewrite Hmap|]. split.
  - apply Forall_map.
    assert (Hcr : Forall (Forall (fun c => c <> Text.cr)) (Text.split_lines [] text)).
    { pose proof (translate_newlines_no_cr (list_ascii_of_string content)) as Hno.
      fold text in Hno. rewrite <- Hcat in Hno. clear -Hno.
      induction (Text.split_lines [] text) as [|l ls IH]; [constructor|].
      simpl in Hno. apply Forall_app in Hno as [? ?]. constructor; auto. }
    clear -Hall Hcr. induction Hall as [|l ls (body & Hnl & Hl) _ IH]; [constructor|].
    apply Forall_cons in Hcr as [Hcr1 Hcr2]. constructor; [|by apply IH].
    simpl. rewrite list_ascii_of_string_of_list_ascii. exists body.
    split; [done|]. split; [|done]. intros Hin. rewrite Forall_forall in Hcr1.
    apply (Hcr1 Text.cr); [|done]. destruct Hl as [->|[-> _]]; [|done].
    apply elem_of_app. by left.
  - rewrite list_ascii_of_string_of_list_ascii.
    by rewrite (translate_newlines_id text) by apply translate_newlines_no_cr.
Qed.
